(** * aws-resource-tagger: a model of [apply_tags.py] and its specification

    The development follows the source file top to bottom: Python strings
    and the builtins the script relies on, the two parsers, the boto3
    clients seen as an external world, the dedicated tagging adapter and
    the batch engine with its report.  Theorems come after all the
    definitions. *)

From Stdlib Require Import ZArith NArith Ascii String.
From stdpp Require Import base option list gmap fin_maps.

Open Scope Z_scope.
Open Scope nat_scope.

(** ** Python strings

    A Python [str] is a sequence of Unicode code points.  Dictionaries are
    finite maps: the insertion order of a Python [dict] is not modelled. *)

Abbreviation str := (list N).
Abbreviation dict := (gmap (list N)).

(** An ASCII literal of the source, as code points. *)
Definition py (s : string) : str := N_of_ascii <$> list_ascii_of_string s.

Module PyStr.

(** [sub in s] *)
Fixpoint contains (sub s : str) : bool :=
  bool_decide (sub `prefix_of` s) ||
  match s with
  | [] => false
  | _ :: s' => contains sub s'
  end.

(** [s.split(sep, maxsplit)] for a non-empty [sep]; [maxsplit = None] is
    Python's default (no limit).  [skip] counts the characters of a
    separator that has just been matched and is still to be consumed.
    The head of the result is the segment being built. *)
Fixpoint split_from (sep : str) (maxsplit : option nat) (skip : nat) (s : str)
  : list str :=
  match s with
  | [] => [[]]
  | c :: s' =>
      match skip with
      | S k => split_from sep maxsplit k s'
      | O =>
          if bool_decide (maxsplit ≠ Some 0) && bool_decide (sep `prefix_of` s)
          then [] :: split_from sep (Nat.pred <$> maxsplit) (length sep - 1) s'
          else match split_from sep maxsplit 0 s' with
               | seg :: rest => (c :: seg) :: rest
               | [] => [[c]]
               end
      end
  end.

Definition split (sep : str) (maxsplit : option nat) (s : str) : list str :=
  split_from sep maxsplit 0 s.

(** [sep.join(parts)] *)
Fixpoint join (sep : str) (parts : list str) : str :=
  match parts with
  | [] => []
  | [p] => p
  | p :: ps => p ++ sep ++ join sep ps
  end.

(** [c.isspace()] for one code point: the characters Python's [str]
    treats as whitespace. *)
Definition isspace (c : N) : bool :=
  ((9 <=? c) && (c <=? 13) || (28 <=? c) && (c <=? 32)
   || (c =? 133) || (c =? 160) || (c =? 5760)
   || (8192 <=? c) && (c <=? 8202)
   || (c =? 8232) || (c =? 8233) || (c =? 8239) || (c =? 8287)
   || (c =? 12288))%N.

Fixpoint lstrip (s : str) : str :=
  match s with
  | [] => []
  | c :: s' => if isspace c then lstrip s' else s
  end.

Definition rstrip (s : str) : str := reverse (lstrip (reverse s)).

(** [s.strip()] *)
Definition strip (s : str) : str := rstrip (lstrip s).

(** [s.startswith(p)] *)
Definition startswith (p s : str) : bool := bool_decide (p `prefix_of` s).

End PyStr.

(** ** Tag string and identifier parsers (lines 16-51) *)

(** What one turn of the [for tag_pair in ...] loop of [parse_tags] assigns:
    the key and the value, if the pair has an [=].  The unpacking
    [key, value = ...] needs exactly two parts; [split_once_two] shows that
    the other branch is never taken. *)
Definition parse_pair (tag_pair : str) : option (str * str) :=
  if PyStr.contains (py "=") tag_pair then
    match PyStr.split (py "=") (Some 1) tag_pair with
    | [key; value] => Some (PyStr.strip key, PyStr.strip value)
    | _ => None
    end
  else None.

Definition parse_tags_step (tags : dict str) (tag_pair : str) : dict str :=
  match parse_pair tag_pair with
  | Some (key, value) => <[key := value]> tags
  | None => tags
  end.

(** [parse_tags]; an absent argument is [None]. *)
Definition parse_tags (tags_string : option str) : dict str :=
  match tags_string with
  | None | Some [] => ∅
  | Some s => foldl parse_tags_step ∅ (PyStr.split (py ",") None s)
  end.

Definition validate_arn (arn : str) : bool := PyStr.startswith (py "arn:aws:") arn.

(** [arn.split(':')[2]], with [IndexError] turned into [None]. *)
Definition get_service_from_arn (arn : str) : option str :=
  PyStr.split (py ":") None arn !! 2.

Definition get_resource_type_from_arn (arn : str) : option str :=
  let parts := PyStr.split (py ":") None arn in
  if bool_decide (6 ≤ length parts) then
    match parts !! 5 with
    | Some resource_part =>
        if PyStr.contains (py "/") resource_part
        then PyStr.split (py "/") None resource_part !! 0
        else Some resource_part
    | None => None
    end
  else None.

(** ** The AWS SDK as an external world (boto3, botocore)

    The clients are given; what a call returns or raises is decided by the
    world, which the call may also change. *)

(** [botocore.exceptions.ClientError]: [e.response['Error']] and [str(e)]. *)
Record ClientError := { Code : str; Message : str; client_error_str : str }.

(** What a client call may raise: a service error, or any other exception
    (connection, validation, ...) of which only [str(e)] is observed. *)
Inductive exn :=
| EClientError (e : ClientError)
| EException (text : str).

Definition exn_str (e : exn) : str :=
  match e with
  | EClientError ce => client_error_str ce
  | EException text => text
  end.

Inductive res (A : Type) :=
| Ok (a : A)
| Raise (e : exn).
Arguments Ok {A} a.
Arguments Raise {A} e.

Record Tag := { Key : str; Value : str }.

(** An entry of [FailedResourcesMap], and of [total_failed]. *)
Record FailureInfo := {
  StatusCode : option Z;
  ErrorCode : option str;
  ErrorMessage : option str }.

Record GetBucketTaggingOutput := { TagSet : option (list Tag) }.
Record TagResourcesOutput := { FailedResourcesMap : option (dict FailureInfo) }.

Record boto3 (W : Type) := {
  appconfig_tag_resource : str → dict str → W → res unit * W;
  s3_get_bucket_tagging : str → W → res GetBucketTaggingOutput * W;
  s3_put_bucket_tagging : str → list Tag → W → res unit * W;
  route53resolver_tag_resource : str → list Tag → W → res unit * W;
  tagging_tag_resources : list str → dict str → W → res TagResourcesOutput * W }.
Arguments appconfig_tag_resource {W}.
Arguments s3_get_bucket_tagging {W}.
Arguments s3_put_bucket_tagging {W}.
Arguments route53resolver_tag_resource {W}.
Arguments tagging_tag_resources {W}.

(** The requests sent, in order. *)
Inductive call :=
| AppConfigTagResource (ResourceArn : str) (Tags : dict str)
| GetBucketTagging (Bucket : str)
| PutBucketTagging (Bucket : str) (tag_set : list Tag)
| ResolverTagResource (ResourceArn : str) (Tags : list Tag)
| TagResources (ResourceARNList : list str) (Tags : dict str).

(** Records of the adapter's logger calls: one constructor per call site,
    with the values its f-string interpolates. *)
Inductive level := INFO | WARNING | ERROR.

#[export] Instance level_eq_dec : EqDecision level.
Proof. solve_decision. Defined.

Inductive message :=
| ExistingBucketTags (n : nat)
| BucketWithoutTags
| ExistingTagsUnavailable (e : str)
| TagsApplied (new total : nat)
| ServiceApiError (service : option str) (e : str).

Record io (W : Type) := { world : W; calls : list call; logs : list (level * message) }.
Arguments world {W}.
Arguments calls {W}.
Arguments logs {W}.

(** ** Computations that may raise *)

Definition M (S A : Type) : Type := S → res A * S.

#[export] Instance M_ret {S} : MRet (M S) := λ A a s, (Ok a, s).

#[export] Instance M_bind {S} : MBind (M S) := λ A B f m s,
  match m s with
  | (Ok a, s') => f a s'
  | (Raise e, s') => (Raise e, s')
  end.

(** [try: body except ...: handler]; a handler answering [None] does not
    catch the exception. *)
Definition try_except {S A} (body : M S A) (handler : exn → option (M S A)) : M S A :=
  λ s,
    match body s with
    | (Raise e, s') =>
        match handler e with
        | Some h => h s'
        | None => (Raise e, s')
        end
    | r => r
    end.

(** [for x in l: body] *)
Fixpoint for_each {S A} (l : list A) (body : A → M S unit) : M S unit :=
  match l with
  | [] => mret tt
  | x :: l' => body x ;; for_each l' body
  end.

(** ** The dedicated tagging adapter (lines 53-102) *)

Section Tagger.
Context {W : Type} (aws : boto3 W).

Definition logged (entries : list (level * message)) (s : io W) : io W :=
  {| world := world s; calls := calls s; logs := logs s ++ entries |}.

Definition called (requests : list call) (w : W) (s : io W) : io W :=
  {| world := w; calls := calls s ++ requests; logs := logs s |}.

Definition log (lvl : level) (msg : message) : M (io W) unit :=
  λ s, (Ok tt, logged [(lvl, msg)] s).

(** A client method: the request is recorded, the world answers. *)
Definition invoke {A} (c : call) (answer : W → res A * W) : M (io W) A :=
  λ s, let (r, w') := answer (world s) in (r, called [c] w' s).

(** [[{'Key': k, 'Value': v} for k, v in d.items()]].  The list comes in
    the order of the finite map, not in Python's insertion order; the
    statements below speak of its members only. *)
Definition tag_list_of (d : dict str) : list Tag :=
  (λ kv, {| Key := kv.1; Value := kv.2 |}) <$> map_to_list d.

(** The loop over [response.get('TagSet', [])]. *)
Definition tags_of_tag_set (tag_set : list Tag) : dict str :=
  foldl (λ existing_tags tag, <[Key tag := Value tag]> existing_tags) ∅ tag_set.

(** Lines 71-81: the existing tags of the bucket, with the inner [try]. *)
Definition read_existing_tags (bucket_name : str) : M (io W) (dict str) :=
  try_except
    (response ← invoke (GetBucketTagging bucket_name) (s3_get_bucket_tagging aws bucket_name);
     let existing_tags := tags_of_tag_set (default [] (TagSet response)) in
     log INFO (ExistingBucketTags (size existing_tags));;
     mret existing_tags)
    (λ e,
       match e with
       | EClientError ce =>
           Some (if bool_decide (Code ce = py "NoSuchTagSet")
                 then log INFO BucketWithoutTags;; mret ∅
                 else log WARNING (ExistingTagsUnavailable (exn_str e));; mret ∅)
       | EException _ => None
       end).

(** [arn.split(':::')[-1]] *)
Definition bucket_of (arn : str) : str :=
  default [] (last (PyStr.split (py ":::") None arn)).

(** The body of the outer [try] of [tag_resource_with_service_api]. *)
Definition service_api_body (arn : str) (tags : dict str) (service : option str)
  : M (io W) bool :=
  if bool_decide (service = Some (py "appconfig")) then
    let appconfig_tags := tags in
    invoke (AppConfigTagResource arn appconfig_tags)
           (appconfig_tag_resource aws arn appconfig_tags);;
    mret true
  else if bool_decide (service = Some (py "s3")) then
    let bucket_name := bucket_of arn in
    existing_tags ← read_existing_tags bucket_name;
    let combined_tags := tags ∪ existing_tags in
    let tag_set := tag_list_of combined_tags in
    invoke (PutBucketTagging bucket_name tag_set)
           (s3_put_bucket_tagging aws bucket_name tag_set);;
    log INFO (TagsApplied (size tags) (size combined_tags));;
    mret true
  else if bool_decide (service = Some (py "route53resolver")) then
    let tag_list := tag_list_of tags in
    invoke (ResolverTagResource arn tag_list)
           (route53resolver_tag_resource aws arn tag_list);;
    mret true
  else mret false.

Definition tag_resource_with_service_api (arn : str) (tags : dict str)
    (service : option str) : M (io W) bool :=
  try_except (service_api_body arn tags service)
    (λ e, Some (log ERROR (ServiceApiError service (exn_str e));; mret false)).

(** ** The orchestrator (lines 104-244)

    Its frame holds the two accumulators next to the outside world, so
    that their values are still there when an exception unwinds the
    function.  The progress and summary logger calls of this function
    neither raise nor feed the report, and are left out. *)

Record frame := {
  total_success_count : Z;
  total_failed : dict FailureInfo;
  env : io W }.

Definition lift {A} (m : M (io W) A) : M frame A :=
  λ f, let (r, e') := m (env f) in
       (r, {| total_success_count := total_success_count f;
              total_failed := total_failed f; env := e' |}).

Definition add_success (n : Z) : M frame unit :=
  λ f, (Ok tt, {| total_success_count := total_success_count f + n;
                  total_failed := total_failed f; env := env f |}).

(** [total_failed[arn] = info] *)
Definition set_failed (arn : str) (info : FailureInfo) : M frame unit :=
  λ f, (Ok tt, {| total_success_count := total_success_count f;
                  total_failed := <[arn := info]> (total_failed f); env := env f |}).

(** [total_failed.update(batch_failed)] *)
Definition update_failed (batch_failed : dict FailureInfo) : M frame unit :=
  λ f, (Ok tt, {| total_success_count := total_success_count f;
                  total_failed := batch_failed ∪ total_failed f; env := env f |}).

Definition BATCH_SIZE : nat := 20.

Definition unsupported_services : list str :=
  [py "s3"; py "appconfig"; py "route53resolver"].

(** [service in unsupported_services] *)
Definition is_unsupported (service : option str) : bool :=
  match service with
  | Some s => bool_decide (s ∈ unsupported_services)
  | None => false
  end.

Definition service_specific_arns (resource_arns : list str) : list str :=
  filter (λ arn, is_unsupported (get_service_from_arn arn) = true) resource_arns.

Definition resource_groups_arns (resource_arns : list str) : list str :=
  filter (λ arn, is_unsupported (get_service_from_arn arn) ≠ true) resource_arns.

(** What an f-string prints for [service]. *)
Definition format_service (service : option str) : str :=
  match service with
  | Some s => s
  | None => py "None"
  end.

Definition service_specific_failure (service : option str) : FailureInfo :=
  {| StatusCode := None;
     ErrorCode := Some (py "ServiceSpecificAPIError");
     ErrorMessage :=
       Some (py "Error usando API espec" ++ [237%N] ++ py "fica de " ++ format_service service) |}.

(** Lines 149-161, one turn of the loop. *)
Definition process_specific (tags : dict str) (arn : str) : M frame unit :=
  let service := get_service_from_arn arn in
  ok ← lift (tag_resource_with_service_api arn tags service);
  if ok : bool then add_success 1%Z
  else set_failed arn (service_specific_failure service).

(** [range(0, stop, step)] *)
Definition py_range (stop step : nat) : list nat :=
  (λ k, k * step) <$> seq 0 ((stop + step - 1) / step).

(** [l[i:j]] for [0 <= i <= j] *)
Definition slice {A} (l : list A) (i j : nat) : list A := take (j - i) (drop i l).

(** Line 165 *)
Definition batches {A} (size : nat) (l : list A) : list (list A) :=
  (λ i, slice l i (i + size)) <$> py_range (length l) size.

Definition client_error_failure (ce : ClientError) : FailureInfo :=
  {| StatusCode := None; ErrorCode := Some (Code ce); ErrorMessage := Some (Message ce) |}.

(** Lines 174-209, one turn of the loop. *)
Definition process_batch (tags : dict str) (batch_arns : list str) : M frame unit :=
  try_except
    (response ← lift (invoke (TagResources batch_arns tags)
                             (tagging_tag_resources aws batch_arns tags));
     let batch_failed := default ∅ (FailedResourcesMap response) in
     let batch_success_count :=
       (Z.of_nat (length batch_arns) - Z.of_nat (size batch_failed))%Z in
     add_success batch_success_count;;
     update_failed batch_failed)
    (λ e,
       match e with
       | EClientError ce =>
           Some (for_each batch_arns (λ arn, set_failed arn (client_error_failure ce)))
       | EException _ => None
       end).

(** Lines 164-209: the batch tagging engine. *)
Definition batch_engine (tags : dict str) (resource_groups_arns : list str)
  : M frame unit :=
  if bool_decide (resource_groups_arns ≠ []) then
    for_each (batches BATCH_SIZE resource_groups_arns) (process_batch tags)
  else mret tt.

(** Lines 145-146 *)
Definition new_frame (e : io W) : frame :=
  {| total_success_count := 0; total_failed := ∅; env := e |}.

(** The body of the [try] of [apply_tags_to_resources], up to the summary. *)
Definition apply_tags_body (resource_arns : list str) (tags : dict str) : M frame unit :=
  for_each (service_specific_arns resource_arns) (process_specific tags);;
  batch_engine tags (resource_groups_arns resource_arns).

(** The frame in which [apply_tags_to_resources] ends, and whether it got
    there by an exception. *)
Definition run (resource_arns : list str) (tags : dict str) (e : io W) : res unit * frame :=
  apply_tags_body resource_arns tags (new_frame e).

(** Line 229 and the two handlers of lines 231-244. *)
Definition apply_tags_to_resources (resource_arns : list str) (tags : dict str)
    (e : io W) : bool * io W :=
  match run resource_arns tags e with
  | (Ok _, f) => (bool_decide (size (total_failed f) = 0), env f)
  | (Raise (EClientError _), f) => (false, env f)
  | (Raise (EException _), f) => (false, env f)
  end.

End Tagger.

(** ** The command line (lines 246-286)

    [main] after [parse_args]: both flags are required, so that the two
    arguments are strings.  The function leaves by [sys.exit]; its result
    here is the exit status.  Its logger calls are left out. *)

Section Entry.
Context {W : Type} (aws : boto3 W).

(** Line 256: [[arn.strip() for arn in s.split(',') if arn.strip()]] *)
Definition parse_arns (resource_arns_arg : str) : list str :=
  filter (λ arn, arn ≠ []) (PyStr.strip <$> PyStr.split (py ",") None resource_arns_arg).

(** Line 263 *)
Definition invalid_arns (resource_arns : list str) : list str :=
  filter (λ arn, validate_arn arn ≠ true) resource_arns.

Definition main (resource_arns_arg tags_arg : str) (e : io W) : nat * io W :=
  let resource_arns := parse_arns resource_arns_arg in
  if bool_decide (resource_arns = []) then (1, e)
  else if bool_decide (invalid_arns resource_arns ≠ []) then (1, e)
  else
    let tags := parse_tags (Some tags_arg) in
    if bool_decide (tags = ∅) then (1, e)
    else
      let (success, e') := apply_tags_to_resources aws resource_arns tags e in
      (if success then 0 else 1, e').

End Entry.

(** ** Notions used in the statements *)

(** Consing a character onto the segment under construction. *)
Definition push (x : N) (segs : list str) : list str :=
  match segs with
  | seg :: rest => (x :: seg) :: rest
  | [] => [[x]]
  end.

(** The characters of [s] before the first [c]. *)
Fixpoint upto (c : N) (s : str) : str :=
  match s with
  | [] => []
  | x :: s' => if bool_decide (x = c) then [] else x :: upto c s'
  end.

Definition completed {A} (r : res A) : bool :=
  match r with
  | Ok _ => true
  | Raise _ => false
  end.

(** The chunks of the [TagResources] requests among the calls. *)
Definition bulk_requests (cs : list call) : list (list str) :=
  omap (λ c, match c with TagResources arns _ => Some arns | _ => None end) cs.

(** The tag sets of the [PutBucketTagging] requests among the calls. *)
Definition written_tag_sets (cs : list call) : list (list Tag) :=
  omap (λ c, match c with PutBucketTagging _ tag_set => Some tag_set | _ => None end) cs.

(** The bulk API reports failures only for identifiers it was sent. *)
Definition answers_within_request {W} (aws : boto3 W) : Prop :=
  ∀ arns tags w response w',
    tagging_tag_resources aws arns tags w = (Ok response, w') →
    ∀ arn, is_Some (default ∅ (FailedResourcesMap response) !! arn) → arn ∈ arns.

(** [total_failed[arn] = info] for every [arn] of a chunk. *)
Definition mark_all (info : FailureInfo) (arns : list str) (failed : dict FailureInfo)
  : dict FailureInfo :=
  foldl (λ m arn, <[arn := info]> m) failed arns.

(** The report accounts for the identifiers [seen]: successes and failure
    entries add up to their number, and only they have failure entries. *)
Definition accounted_for {W} (seen : list str) (f : @frame W) : Prop :=
  (0 ≤ total_success_count f)%Z
  ∧ (total_success_count f + Z.of_nat (size (total_failed f)))%Z = Z.of_nat (length seen)
  ∧ ∀ arn, is_Some (total_failed f !! arn) → arn ∈ seen.

(** What the bulk API answers when the chunks are sent one after another,
    the first of them in the world [w].  (Past an answer that ends the
    engine the list goes on with what the world would have answered.) *)
Fixpoint answers_to {W} (aws : boto3 W) (tags : dict str) (chunks : list (list str)) (w : W)
  : list (res TagResourcesOutput) :=
  match chunks with
  | [] => []
  | chunk :: rest =>
      let (answer, w') := tagging_tag_resources aws chunk tags w in
      answer :: answers_to aws tags rest w'
  end.

(** The first answer that is an exception other than a service error: its
    position and its text. *)
Fixpoint first_unexpected {A} (answers : list (res A)) : option (nat * str) :=
  match answers with
  | [] => None
  | Raise (EException text) :: _ => Some (0, text)
  | _ :: rest => (λ found, (S found.1, found.2)) <$> first_unexpected rest
  end.

(** No call raises and the bulk API reports no failure (a failed read of
    the bucket tags by a service error is left free: the adapter tolerates
    it). *)
Definition all_succeed {W} (aws : boto3 W) : Prop :=
  (∀ arn tags w, (appconfig_tag_resource aws arn tags w).1 = Ok tt)
  ∧ (∀ bucket w text, (s3_get_bucket_tagging aws bucket w).1 ≠ Raise (EException text))
  ∧ (∀ bucket tag_set w, (s3_put_bucket_tagging aws bucket tag_set w).1 = Ok tt)
  ∧ (∀ arn tag_list w, (route53resolver_tag_resource aws arn tag_list w).1 = Ok tt)
  ∧ (∀ arns tags w, ∃ response,
       (tagging_tag_resources aws arns tags w).1 = Ok response
       ∧ default ∅ (FailedResourcesMap response) = ∅).

(** The text [key=value] of each pair, as typed on the command line. *)
Definition render_pairs (pairs : list (str * str)) : list str :=
  (λ kv, kv.1 ++ 61%N :: kv.2) <$> pairs.

(** ** Sample worlds and identifiers, used to run the model *)

(** A world that plays fixed answers; the bulk answers are used up one per
    call, and the bulk API succeeds once they are exhausted. *)
Record script := {
  on_get : res GetBucketTaggingOutput;
  on_put : res unit;
  on_tag : res unit;
  on_bulk : list (res TagResourcesOutput) }.

Definition scripted : boto3 script := {|
  appconfig_tag_resource := λ _ _ w, (on_tag w, w);
  s3_get_bucket_tagging := λ _ w, (on_get w, w);
  s3_put_bucket_tagging := λ _ _ w, (on_put w, w);
  route53resolver_tag_resource := λ _ _ w, (on_tag w, w);
  tagging_tag_resources := λ _ _ w,
    match on_bulk w with
    | [] => (Ok {| FailedResourcesMap := None |}, w)
    | r :: rest =>
        (r, {| on_get := on_get w; on_put := on_put w; on_tag := on_tag w;
               on_bulk := rest |})
    end |}.

Definition start {W} (w : W) : io W := {| world := w; calls := []; logs := [] |}.

Definition access_denied : ClientError := {|
  Code := py "AccessDenied";
  Message := py "Access Denied";
  client_error_str :=
    py "An error occurred (AccessDenied) when calling the PutBucketTagging operation: Access Denied" |}.

Definition throttled : ClientError := {|
  Code := py "ThrottlingException";
  Message := py "Rate exceeded";
  client_error_str :=
    py "An error occurred (ThrottlingException) when calling the TagResources operation: Rate exceeded" |}.

Definition invalid_arn_info : FailureInfo := {|
  StatusCode := Some 400%Z;
  ErrorCode := Some (py "InvalidParameterException");
  ErrorMessage := Some (py "ARN is not valid") |}.

(** A world without state in which exactly the identifiers (and buckets)
    chosen by [bad] fail. *)
Definition selective (bad : str → bool) : boto3 unit := {|
  appconfig_tag_resource := λ arn _ w,
    (if bad arn then Raise (EClientError access_denied) else Ok tt, w);
  s3_get_bucket_tagging := λ _ w, (Ok {| TagSet := Some [] |}, w);
  s3_put_bucket_tagging := λ bucket _ w,
    (if bad bucket then Raise (EClientError access_denied) else Ok tt, w);
  route53resolver_tag_resource := λ arn _ w,
    (if bad arn then Raise (EClientError access_denied) else Ok tt, w);
  tagging_tag_resources := λ arns _ w,
    (Ok {| FailedResourcesMap :=
             Some (list_to_map ((λ arn, (arn, invalid_arn_info)) <$> filter (λ arn, bad arn = true) arns)) |},
     w) |}.

Definition instance_arn (i : nat) : str :=
  py "arn:aws:ec2:us-east-1:123456789012:instance/i-"
  ++ [N.of_nat (48 + i / 10); N.of_nat (48 + i mod 10)].

Definition bucket_arn (i : nat) : str :=
  py "arn:aws:s3:::bucket-" ++ [N.of_nat (48 + i / 10); N.of_nat (48 + i mod 10)].

Definition forty_five : list str := instance_arn <$> seq 0 45.

Definition env_prod : dict str := {[ py "env" := py "prod" ]}.
Definition owner_team_a : dict str := {[ py "owner" := py "team-a" ]}.
Definition env_staging : dict str := {[ py "env" := py "staging" ]}.

Definition quiet : script := {|
  on_get := Ok {| TagSet := Some [ {| Key := py "env"; Value := py "prod" |} ] |};
  on_put := Ok tt;
  on_tag := Ok tt;
  on_bulk := [] |}.

Definition read_times_out : script := {|
  on_get := Raise (EException (py "Read timed out"));
  on_put := Ok tt;
  on_tag := Ok tt;
  on_bulk := [] |}.

Definition write_denied : script := {|
  on_get := Raise (EClientError {| Code := py "NoSuchTagSet"; Message := py "The TagSet does not exist";
                                   client_error_str := py "An error occurred (NoSuchTagSet)" |});
  on_put := Raise (EClientError access_denied);
  on_tag := Ok tt;
  on_bulk := [] |}.

Definition read_denied : script := {|
  on_get := Raise (EClientError access_denied);
  on_put := Ok tt;
  on_tag := Ok tt;
  on_bulk := [] |}.

Definition bulk_unreachable : script := {|
  on_get := Ok {| TagSet := None |};
  on_put := Ok tt;
  on_tag := Ok tt;
  on_bulk := [Raise (EException (py "Could not connect to the endpoint URL"))] |}.

Definition second_chunk_throttled : script := {|
  on_get := Ok {| TagSet := None |};
  on_put := Ok tt;
  on_tag := Ok tt;
  on_bulk := [Ok {| FailedResourcesMap := Some ∅ |}; Raise (EClientError throttled)] |}.

Definition bulk_throttled : script := {|
  on_get := Ok {| TagSet := None |};
  on_put := Ok tt;
  on_tag := Ok tt;
  on_bulk := [Raise (EClientError throttled)] |}.

Definition bulk_blames_bucket : script := {|
  on_get := Ok {| TagSet := None |};
  on_put := Raise (EClientError access_denied);
  on_tag := Ok tt;
  on_bulk := [Ok {| FailedResourcesMap := Some {[ bucket_arn 1 := invalid_arn_info ]} |}] |}.

Definition picky : boto3 unit :=
  selective (λ arn, bool_decide (arn ∈ [instance_arn 1; py "bucket-02"])).

Definition calm : boto3 unit := selective (λ _, false).

(** * Properties *)

Example parse_tags_demo :
  parse_tags (Some (py "a=1,b=2,bad,c= 3 "))
  = <[py "c" := py "3"]> (<[py "b" := py "2"]> (<[py "a" := py "1"]> ∅)).
Proof. reflexivity. Qed.

Example service_demo : get_service_from_arn (py "arn:aws:s3:::my-bucket") = Some (py "s3").
Proof. reflexivity. Qed.

Ltac by_computation :=
  match goal with |- ?P => apply (bool_decide_unpack P); vm_compute; exact I end.

(** ** Strings *)

Section Strings.
Import PyStr.

Lemma prefix_single (c x : N) (s : str) : [c] `prefix_of` (x :: s) ↔ c = x.
Proof.
  split.
  - intros [k Hk]. by injection Hk.
  - intros ->. by exists s.
Qed.

Lemma split_char_cons (c x : N) (m : option nat) (s : str) :
  split_from [c] m 0 (x :: s)
  = if bool_decide (m ≠ Some 0) && bool_decide (c = x)
    then [] :: split_from [c] (Nat.pred <$> m) 0 s
    else push x (split_from [c] m 0 s).
Proof.
  cbn [split_from length Nat.sub].
  rewrite (bool_decide_ext _ _ (prefix_single c x s)).
  by destruct (bool_decide (m ≠ Some 0) && bool_decide (c = x)).
Qed.

Lemma split_from_nonempty sep m k s : split_from sep m k s ≠ [].
Proof.
  revert m k. induction s as [|x s IH]; intros m k; [done|].
  cbn [split_from]. destruct k; [|apply IH].
  destruct (_ && _); [done|].
  specialize (IH m 0). by destruct (split_from sep m 0 s).
Qed.

Lemma split_exhausted sep s : split_from sep (Some 0) 0 s = [s].
Proof.
  induction s as [|x s IH]; [done|].
  cbn [split_from]. rewrite bool_decide_false by (by intros []).
  cbn. by rewrite IH.
Qed.

Lemma join_push sep x segs : segs ≠ [] → join sep (push x segs) = x :: join sep segs.
Proof. destruct segs as [|seg [|seg' rest]]; done. Qed.

Lemma split_char_join c s : join [c] (split [c] None s) = s.
Proof.
  unfold split. induction s as [|x s IH]; [done|].
  rewrite split_char_cons. rewrite bool_decide_true by done. cbn [andb fmap option_fmap option_map].
  case_bool_decide as Hc.
  - subst x. pose proof (split_from_nonempty [c] None 0 s) as Hne.
    cbn [join]. destruct (split_from [c] None 0 s) eqn:E; [done|].
    cbn. f_equal. exact IH.
  - rewrite join_push by apply split_from_nonempty. by rewrite IH.
Qed.

Lemma split_char_no_sep c s : Forall (λ seg, c ∉ seg) (split [c] None s).
Proof.
  unfold split. induction s as [|x s IH].
  - repeat constructor. by intros ?%elem_of_nil.
  - rewrite split_char_cons. rewrite bool_decide_true by done. cbn [andb fmap option_fmap option_map].
    case_bool_decide as Hc.
    + constructor; [by intros ?%elem_of_nil | exact IH].
    + destruct (split_from [c] None 0 s) as [|seg rest]; cbn.
      * repeat constructor. intros ?%list_elem_of_singleton. done.
      * inversion IH as [|? ? Hseg Hrest]; subst. constructor; [|done].
        intros [->|?]%elem_of_cons; done.
Qed.

(** The segment before the first separator. *)
Lemma split_char_first c m s : m ≠ Some 0 → split [c] m s !! 0 = Some (upto c s).
Proof.
  unfold split. intros Hm. induction s as [|x s IH]; [done|].
  rewrite split_char_cons. rewrite bool_decide_true by done. cbn [andb upto].
  rewrite (bool_decide_ext (x = c) (c = x)) by done.
  case_bool_decide; [done|].
  destruct (split_from [c] m 0 s) as [|seg rest]; [done|].
  cbn in *. congruence.
Qed.

Lemma upto_spec c first rest : c ∉ first → upto c (first ++ c :: rest) = first.
Proof.
  induction first as [|x first IH]; intros Hc; cbn.
  - by rewrite bool_decide_true.
  - rewrite bool_decide_false by (intros ->; apply Hc; left).
    f_equal. apply IH. intros ?. apply Hc. by right.
Qed.

Lemma upto_absent c s : c ∉ s → upto c s = s.
Proof.
  induction s as [|x s IH]; intros Hc; cbn; [done|].
  rewrite bool_decide_false by (intros ->; apply Hc; left).
  f_equal. apply IH. intros ?. apply Hc. by right.
Qed.

Lemma contains_char c s : contains [c] s = true ↔ c ∈ s.
Proof.
  induction s as [|x s IH]; cbn.
  - rewrite orb_false_r. rewrite bool_decide_eq_true. split.
    + intros [k Hk]. done.
    + by intros ?%elem_of_nil.
  - rewrite orb_true_iff, IH, bool_decide_eq_true, prefix_single, elem_of_cons.
    intuition congruence.
Qed.

(** Splitting once on a character that occurs: the part before its first
    occurrence and everything after it. *)
Lemma split_once_two c k v : c ∉ k → split [c] (Some 1) (k ++ c :: v) = [k; v].
Proof.
  unfold split. induction k as [|x k IH]; intros Hc.
  - cbn [app]. rewrite split_char_cons.
    rewrite !bool_decide_true by done. cbn. by rewrite split_exhausted.
  - cbn [app]. rewrite split_char_cons.
    rewrite (bool_decide_false (c = x)) by (intros ->; apply Hc; left).
    rewrite andb_false_r. rewrite IH; [done|]. intros ?. apply Hc. by right.
Qed.

Lemma first_occurrence c (s : str) : c ∈ s → ∃ k v, s = k ++ c :: v ∧ c ∉ k.
Proof.
  induction s as [|x s IH]; [by intros ?%elem_of_nil|].
  intros Hin. destruct (decide (x = c)) as [->|Hne].
  - exists [], s. split; [done|]. by intros ?%elem_of_nil.
  - apply elem_of_cons in Hin as [->|Hin]; [done|].
    destruct (IH Hin) as (k & v & -> & Hk).
    exists (x :: k), v. split; [done|].
    intros [->|?]%elem_of_cons; done.
Qed.

(** [strip] removes a run of whitespace at each end, and nothing else. *)
Lemma lstrip_spec s :
  ∃ l, s = l ++ lstrip s ∧ Forall (λ c, isspace c = true) l
       ∧ ∀ c, head (lstrip s) = Some c → isspace c = false.
Proof.
  induction s as [|x s (l & Hs & Hl & Hh)]; cbn.
  - exists []. done.
  - destruct (isspace x) eqn:Hx.
    + exists (x :: l). split; [by rewrite Hs at 1|]. split; [by constructor|done].
    + exists []. split; [done|]. split; [constructor|]. cbn. by intros ? [= <-].
Qed.

Lemma lstrip_idem_head s c :
  head s = Some c → isspace c = false → lstrip s = s.
Proof. destruct s; cbn; [done|]. by intros [= ->] ->. Qed.

Lemma strip_spec s :
  ∃ l r, s = l ++ strip s ++ r
         ∧ Forall (λ c, isspace c = true) l ∧ Forall (λ c, isspace c = true) r
         ∧ (∀ c, head (strip s) = Some c → isspace c = false)
         ∧ (∀ c, last (strip s) = Some c → isspace c = false).
Proof.
  unfold strip, rstrip.
  destruct (lstrip_spec s) as (l & Hs & Hl & Hh).
  destruct (lstrip_spec (reverse (lstrip s))) as (r & Hr & Hrs & Hrh).
  exists l, (reverse r). split; [|split; [done|split; [|split]]].
  - rewrite <- reverse_app, <- Hr, reverse_involutive. exact Hs.
  - by apply Forall_reverse.
  - intros c Hc. set (t := lstrip (reverse (lstrip s))) in *.
    destruct (decide (t = [])) as [Ht|Ht]; [by rewrite Ht in Hc|].
    apply Hh. assert (Hr' : lstrip s = reverse t ++ reverse r).
    { rewrite <- reverse_app, <- Hr. by rewrite reverse_involutive. }
    rewrite Hr'. destruct (reverse t) as [|y t'] eqn:E; [|by cbn in *].
    apply (f_equal reverse) in E. rewrite reverse_involutive in E. done.
  - intros c Hc. rewrite last_reverse in Hc. by apply Hrh.
Qed.

End Strings.

(** ** The tag string parser *)

Section Parsers.
Import PyStr.

Lemma parse_pair_without_eq p : 61%N ∉ p → parse_pair p = None.
Proof.
  intros Hp. unfold parse_pair.
  destruct (contains (py "=") p) eqn:E; [|done].
  by apply (contains_char 61) in E.
Qed.

Lemma parse_pair_first_eq k v :
  61%N ∉ k → parse_pair (k ++ 61%N :: v) = Some (strip k, strip v).
Proof.
  intros Hk. unfold parse_pair.
  replace (contains (py "=") (k ++ 61%N :: v)) with true.
  - change (py "=") with [61%N]. by rewrite split_once_two.
  - symmetry. apply (contains_char 61). set_solver.
Qed.

(** The branch of [parse_pair] for a failed unpacking is dead code. *)
Lemma parse_pair_some_iff p : is_Some (parse_pair p) ↔ 61%N ∈ p.
Proof.
  split.
  - intros [kv Hkv]. destruct (decide (61%N ∈ p)); [done|].
    by rewrite parse_pair_without_eq in Hkv.
  - intros (k & v & -> & Hk)%first_occurrence. by rewrite parse_pair_first_eq.
Qed.

Lemma parse_tags_fold s :
  parse_tags (Some s) = foldl parse_tags_step ∅ (split (py ",") None s).
Proof. by destruct s. Qed.

(** Pairs that do not assign [k] leave its entry alone. *)
Lemma foldl_step_untouched (k : str) (pairs : list str) (tags : dict str) :
  Forall (λ p, ∀ v, parse_pair p ≠ Some (k, v)) pairs →
  foldl parse_tags_step tags pairs !! k = tags !! k.
Proof.
  revert tags. induction pairs as [|p pairs IH]; intros tags Hall; [done|].
  inversion Hall as [|? ? Hp Hrest]; subst. cbn [foldl]. rewrite IH by done.
  unfold parse_tags_step. destruct (parse_pair p) as [[k' v']|] eqn:E; [|done].
  apply lookup_insert_ne. intros ->. by apply (Hp v').
Qed.

Lemma foldl_step_last (k v : str) (before : list str) (p : str) (after : list str)
    (tags : dict str) :
  parse_pair p = Some (k, v) →
  Forall (λ p', ∀ v', parse_pair p' ≠ Some (k, v')) after →
  foldl parse_tags_step tags (before ++ p :: after) !! k = Some v.
Proof.
  intros Hp Hafter. rewrite foldl_app. cbn [foldl].
  rewrite foldl_step_untouched by done.
  unfold parse_tags_step at 1. rewrite Hp. apply lookup_insert_eq.
Qed.

(** C8.  The tag parser cuts its input at the commas (the pieces, joined
    by commas, give the input back, and none contains a comma); a piece
    without [=] adds nothing; a piece with [=] adds the text before its
    first [=] as key and the text after it as value, both stripped of
    surrounding whitespace and of nothing else; an empty or absent input
    gives the empty mapping; and ["a=1,b=2,bad,c= 3 "] gives
    [{a:1, b:2, c:3}]. *)
Theorem parse_tags_spec :
  parse_tags None = ∅ ∧ parse_tags (Some []) = ∅
  ∧ (∀ s, let pairs := split (py ",") None s in
          join (py ",") pairs = s
          ∧ Forall (λ p, 44%N ∉ p) pairs
          ∧ parse_tags (Some s) = foldl parse_tags_step ∅ pairs)
  ∧ (∀ tags p, 61%N ∉ p → parse_tags_step tags p = tags)
  ∧ (∀ tags k v, 61%N ∉ k →
       parse_tags_step tags (k ++ 61%N :: v) = <[strip k := strip v]> tags)
  ∧ (∀ x, ∃ l r, x = l ++ strip x ++ r
                 ∧ Forall (λ c, isspace c = true) l
                 ∧ Forall (λ c, isspace c = true) r
                 ∧ (∀ c, head (strip x) = Some c → isspace c = false)
                 ∧ (∀ c, last (strip x) = Some c → isspace c = false))
  ∧ parse_tags (Some (py "a=1,b=2,bad,c= 3 "))
    = {[ py "a" := py "1"; py "b" := py "2"; py "c" := py "3" ]}.
Proof.
  split; [done|]. split; [done|]. split; [|split; [|split; [|split]]].
  - intros s pairs. subst pairs. split; [apply (split_char_join 44)|].
    split; [apply (split_char_no_sep 44)|apply parse_tags_fold].
  - intros tags p Hp. unfold parse_tags_step. by rewrite parse_pair_without_eq.
  - intros tags k v Hk. unfold parse_tags_step. by rewrite parse_pair_first_eq.
  - apply strip_spec.
  - vm_compute. reflexivity.
Qed.

Lemma parse_tags_spec_witness :
  parse_tags_step env_prod (py "bad") = env_prod
  ∧ parse_tags_step ∅ (py "c" ++ 61%N :: py " 3 ") = <[strip (py "c") := strip (py " 3 ")]> ∅.
Proof.
  destruct parse_tags_spec as (_ & _ & _ & Hdrop & Hadd & _).
  split.
  - apply Hdrop. vm_compute. apply not_elem_of_cons. split; [discriminate|].
    apply not_elem_of_cons. split; [discriminate|].
    apply not_elem_of_cons. split; [discriminate|]. apply not_elem_of_nil.
  - apply Hadd. vm_compute. apply not_elem_of_cons. split; [discriminate|].
    apply not_elem_of_nil.
Defined.

(** C10.  When several comma-separated pairs of a tag string have the
    same key after trimming, the mapping holds the value of the last of
    them: a pair [key=value] followed by no pair with the same trimmed key
    decides the entry of that key, whatever comes before it. *)
Theorem parse_tags_last_wins (s : str) (before after : list str) (key value : str) :
  split (py ",") None s = before ++ (key ++ 61%N :: value) :: after →
  61%N ∉ key →
  (∀ key' value', key' ++ 61%N :: value' ∈ after → 61%N ∉ key' → strip key' ≠ strip key) →
  parse_tags (Some s) !! strip key = Some (strip value).
Proof.
  intros Hs Hkey Hafter. rewrite parse_tags_fold, Hs.
  apply foldl_step_last; [by apply parse_pair_first_eq|].
  apply Forall_forall. intros p' Hin v' Hp'.
  assert (61%N ∈ p') as (key' & value' & -> & Hkey')%first_occurrence.
  { apply parse_pair_some_iff. by rewrite Hp'. }
  rewrite parse_pair_first_eq in Hp' by done. injection Hp' as Hk _.
  by apply (Hafter key' value').
Qed.

Lemma parse_tags_last_wins_witness :
  parse_tags (Some (py "env=dev, env =prod,x=1")) !! strip (py " env ") = Some (strip (py "prod")).
Proof.
  apply (parse_tags_last_wins _ [py "env=dev"] [py "x=1"] (py " env ") (py "prod")).
  - vm_compute. reflexivity.
  - by_computation.
  - intros key' value' Hin%list_elem_of_singleton Hkey'.
    destruct key' as [|c [|c' key']]; [discriminate| |].
    + injection Hin as -> _. vm_compute. discriminate.
    + injection Hin as _ Hc' _. vm_compute in Hkey'.
      exfalso. apply Hkey'. right. rewrite Hc'. left.
Defined.

Example repeated_key_keeps_last :
  parse_tags (Some (py "env=dev, env =prod,x=1"))
  = {[ py "env" := py "prod"; py "x" := py "1" ]}.
Proof. vm_compute. reflexivity. Qed.

(** ** The identifier parser *)

Lemma service_none_iff arn :
  get_service_from_arn arn = None ↔ length (split (py ":") None arn) < 3.
Proof. unfold get_service_from_arn. rewrite lookup_ge_None. lia. Qed.

Lemma resource_type_closed_form arn :
  get_resource_type_from_arn arn
  = (λ resource_part,
       if bool_decide (47%N ∈ resource_part) then upto 47 resource_part else resource_part)
    <$> split (py ":") None arn !! 5.
Proof.
  unfold get_resource_type_from_arn. cbv zeta.
  case_bool_decide as Hlen.
  - destruct (_ !! 5) as [rp|] eqn:E; [|done]. cbn [fmap option_fmap option_map].
    destruct (contains (py "/") rp) eqn:Hc.
    + apply (contains_char 47) in Hc. rewrite bool_decide_true by done.
      by apply (split_char_first 47).
    + rewrite bool_decide_false; [done|].
      intros Hin%(contains_char 47). change [47%N] with (py "/") in Hin. congruence.
  - rewrite (proj2 (lookup_ge_None _ 5)); [done|lia].
Qed.

(** C9.  [service(id)] is the third colon-delimited segment, and
    [resourceType(id)] is the sixth one, cut before its first slash when
    it has one; with fewer than three, respectively six, segments the
    result is undefined: the absent value [None], and in no other case. *)
Theorem arn_segments_spec (arn : str) :
  let segments := split (py ":") None arn in
  join (py ":") segments = arn
  ∧ Forall (λ seg, 58%N ∉ seg) segments
  ∧ get_service_from_arn arn = segments !! 2
  ∧ (get_service_from_arn arn = None ↔ length segments < 3)
  ∧ get_resource_type_from_arn arn
    = (λ resource_part,
         if bool_decide (47%N ∈ resource_part) then upto 47 resource_part else resource_part)
      <$> segments !! 5
  ∧ (get_resource_type_from_arn arn = None ↔ length segments < 6)
  ∧ (∀ first rest, 47%N ∉ first → upto 47 (first ++ 47%N :: rest) = first).
Proof.
  cbv zeta. split; [apply (split_char_join 58)|]. split; [apply (split_char_no_sep 58)|].
  split; [done|]. split; [apply service_none_iff|].
  split; [apply resource_type_closed_form|]. split; [|apply upto_spec].
  rewrite resource_type_closed_form, fmap_None, lookup_ge_None. lia.
Qed.

Lemma arn_segments_spec_witness :
  get_service_from_arn (py "arn:aws") = None
  ∧ upto 47 (py "instance" ++ 47%N :: py "i-0abc") = py "instance".
Proof.
  destruct (arn_segments_spec (py "arn:aws")) as (_ & _ & _ & Hnone & _ & _ & Hupto).
  split.
  - apply Hnone. vm_compute. lia.
  - apply Hupto. vm_compute. intros Hin.
    repeat (apply elem_of_cons in Hin as [Hin|Hin]; [discriminate|]).
    by apply elem_of_nil in Hin.
Defined.

Example short_identifiers_are_undefined :
  get_service_from_arn (py "arn:aws") = None
  ∧ get_resource_type_from_arn (py "arn:aws:s3") = None.
Proof. vm_compute. repeat split. Qed.

Example service_of_instance :
  get_service_from_arn (py "arn:aws:ec2:us-east-1:123:instance/i-1") = Some (py "ec2").
Proof. reflexivity. Qed.

Example resource_type_of_instance :
  get_resource_type_from_arn (py "arn:aws:ec2:us-east-1:123456789012:instance/i-0abc")
  = Some (py "instance").
Proof. reflexivity. Qed.

End Parsers.

(** ** The dedicated tagging adapter *)

Ltac run_monad :=
  unfold mbind, M_bind, mret, M_ret, try_except, log, invoke, lift in *; cbn beta iota in *.

Section Adapter.
Context {W : Type} (aws : boto3 W).

Lemma read_existing_ok bucket_name (st : io W) response w1 :
  s3_get_bucket_tagging aws bucket_name (world st) = (Ok response, w1) →
  read_existing_tags aws bucket_name st
  = (Ok (tags_of_tag_set (default [] (TagSet response))),
     logged [(INFO, ExistingBucketTags (size (tags_of_tag_set (default [] (TagSet response)))))]
       (called [GetBucketTagging bucket_name] w1 st)).
Proof. intros E. unfold read_existing_tags. run_monad. by rewrite E. Qed.

Lemma read_existing_client_error bucket_name (st : io W) ce w1 :
  s3_get_bucket_tagging aws bucket_name (world st) = (Raise (EClientError ce), w1) →
  read_existing_tags aws bucket_name st
  = (Ok ∅,
     logged [if bool_decide (Code ce = py "NoSuchTagSet") then (INFO, BucketWithoutTags)
             else (WARNING, ExistingTagsUnavailable (client_error_str ce))]
       (called [GetBucketTagging bucket_name] w1 st)).
Proof.
  intros E. unfold read_existing_tags. run_monad. rewrite E.
  by case_bool_decide.
Qed.

Lemma read_existing_exception bucket_name (st : io W) text w1 :
  s3_get_bucket_tagging aws bucket_name (world st) = (Raise (EException text), w1) →
  read_existing_tags aws bucket_name st
  = (Raise (EException text), called [GetBucketTagging bucket_name] w1 st).
Proof. intros E. unfold read_existing_tags. run_monad. by rewrite E. Qed.

(** The bucket path once the existing tags are known. *)
Lemma bucket_path_write arn tags (st st1 : io W) existing_tags :
  read_existing_tags aws (bucket_of arn) st = (Ok existing_tags, st1) →
  tag_resource_with_service_api aws arn tags (Some (py "s3")) st
  = let tag_set := tag_list_of (tags ∪ existing_tags) in
    match s3_put_bucket_tagging aws (bucket_of arn) tag_set (world st1) with
    | (Ok _, w2) =>
        (Ok true, logged [(INFO, TagsApplied (size tags) (size (tags ∪ existing_tags)))]
                    (called [PutBucketTagging (bucket_of arn) tag_set] w2 st1))
    | (Raise e, w2) =>
        (Ok false, logged [(ERROR, ServiceApiError (Some (py "s3")) (exn_str e))]
                     (called [PutBucketTagging (bucket_of arn) tag_set] w2 st1))
    end.
Proof.
  intros E. unfold tag_resource_with_service_api, service_api_body.
  rewrite bool_decide_false by (vm_compute; discriminate).
  rewrite bool_decide_true by done.
  run_monad. rewrite E. cbv zeta.
  destruct (s3_put_bucket_tagging _ _ _ _) as [[[]|e] w2]; done.
Qed.

Lemma bucket_path_abort arn tags (st st1 : io W) e :
  read_existing_tags aws (bucket_of arn) st = (Raise e, st1) →
  tag_resource_with_service_api aws arn tags (Some (py "s3")) st
  = (Ok false, logged [(ERROR, ServiceApiError (Some (py "s3")) (exn_str e))] st1).
Proof.
  intros E. unfold tag_resource_with_service_api, service_api_body.
  rewrite bool_decide_false by (vm_compute; discriminate).
  rewrite bool_decide_true by done.
  run_monad. by rewrite E.
Qed.

(** The adapter turns every exception into [False]. *)
Lemma adapter_never_raises arn tags service (st : io W) :
  ∃ ok st', tag_resource_with_service_api aws arn tags service st = (Ok ok, st').
Proof.
  unfold tag_resource_with_service_api. run_monad.
  destruct (service_api_body aws arn tags service st) as [[ok|e] st']; eauto.
Qed.

Lemma adapter_on_exception arn tags service (st st1 : io W) e :
  service_api_body aws arn tags service st = (Raise e, st1) →
  tag_resource_with_service_api aws arn tags service st
  = (Ok false, logged [(ERROR, ServiceApiError service (exn_str e))] st1).
Proof. intros E. unfold tag_resource_with_service_api. run_monad. by rewrite E. Qed.

Lemma tag_list_of_spec (d : dict str) :
  NoDup (Key <$> tag_list_of d)
  ∧ ∀ k v, {| Key := k; Value := v |} ∈ tag_list_of d ↔ d !! k = Some v.
Proof.
  unfold tag_list_of. split.
  - rewrite <- list_fmap_compose.
    rewrite (list_fmap_ext _ fst (map_to_list d) ) by done.
    apply NoDup_fst_map_to_list.
  - intros k v. rewrite list_elem_of_fmap. split.
    + intros ([k' v'] & [= -> ->] & Hin). by apply elem_of_map_to_list in Hin.
    + intros Hd. exists (k, v). split; [done|]. by apply elem_of_map_to_list.
Qed.

End Adapter.

Lemma tags_of_tag_set_snoc tag_set tag :
  tags_of_tag_set (tag_set ++ [tag]) = <[Key tag := Value tag]> (tags_of_tag_set tag_set).
Proof. unfold tags_of_tag_set. by rewrite foldl_app. Qed.

(** A tag set without repeated keys is read as it is. *)
Lemma tags_of_tag_set_lookup (tag_set : list Tag) k v :
  NoDup (Key <$> tag_set) →
  tags_of_tag_set tag_set !! k = Some v ↔ {| Key := k; Value := v |} ∈ tag_set.
Proof.
  induction tag_set as [|tag tag_set IH] using rev_ind; intros Hnd.
  - unfold tags_of_tag_set. cbn. rewrite lookup_empty. split; [done|by intros ?%elem_of_nil].
  - rewrite fmap_app in Hnd. apply NoDup_app in Hnd as (Hnd & Hfresh & _).
    rewrite tags_of_tag_set_snoc, elem_of_app, list_elem_of_singleton.
    destruct (decide (Key tag = k)) as [<-|Hne].
    + rewrite lookup_insert_eq. split.
      * intros [= <-]. right. by destruct tag.
      * intros [Hin|Heq]; [|by rewrite <- Heq]. exfalso.
        apply (Hfresh (Key tag)); [|cbn; left].
        apply list_elem_of_fmap. by exists {| Key := Key tag; Value := v |}.
    + rewrite lookup_insert_ne by done. rewrite IH by done.
      split; [by left|]. intros [?|Heq]; [done|]. by rewrite <- Heq in Hne.
Qed.

Section BucketPath.
Context {W : Type} (aws : boto3 W).

Lemma bucket_write_union arn tags (st : io W) :
  let bucket := bucket_of arn in
  let st' := (tag_resource_with_service_api aws arn tags (Some (py "s3")) st).2 in
  match s3_get_bucket_tagging aws bucket (world st) with
  | (Raise (EException _), _) => calls st' = calls st ++ [GetBucketTagging bucket]
  | (answer, _) =>
      let existing :=
        match answer with
        | Ok response => tags_of_tag_set (default [] (TagSet response))
        | Raise _ => ∅
        end in
      ∃ tag_set,
        calls st' = calls st ++ [GetBucketTagging bucket; PutBucketTagging bucket tag_set]
        ∧ NoDup (Key <$> tag_set)
        ∧ ∀ k v, {| Key := k; Value := v |} ∈ tag_set
                 ↔ tags !! k = Some v ∨ (tags !! k = None ∧ existing !! k = Some v)
  end.
Proof.
  cbv zeta.
  assert (Hwrite : ∀ st1 existing,
    read_existing_tags aws (bucket_of arn) st = (Ok existing, st1) →
    calls st1 = calls st ++ [GetBucketTagging (bucket_of arn)] →
    ∃ tag_set,
      calls (tag_resource_with_service_api aws arn tags (Some (py "s3")) st).2
      = calls st ++ [GetBucketTagging (bucket_of arn); PutBucketTagging (bucket_of arn) tag_set]
      ∧ NoDup (Key <$> tag_set)
      ∧ ∀ k v, {| Key := k; Value := v |} ∈ tag_set
               ↔ tags !! k = Some v ∨ (tags !! k = None ∧ existing !! k = Some v)).
  { intros st1 existing Hread Hcalls.
    exists (tag_list_of (tags ∪ existing)).
    destruct (tag_list_of_spec (tags ∪ existing)) as [Hnd Hin].
    split; [|split; [done|]].
    - rewrite (bucket_path_write aws arn tags st st1 existing Hread). cbv zeta.
      destruct (s3_put_bucket_tagging _ _ _ _) as [[[]|e] w2]; cbn;
        rewrite Hcalls, <- app_assoc; done.
    - intros k v. rewrite Hin, lookup_union_Some_raw. done. }
  destruct (s3_get_bucket_tagging aws (bucket_of arn) (world st)) as [[response|[ce|text]] w1] eqn:E.
  - eapply Hwrite; [by apply read_existing_ok|done].
  - eapply Hwrite; [by apply read_existing_client_error|done].
  - rewrite (bucket_path_abort aws arn tags st _ _ (read_existing_exception aws _ st text w1 E)).
    done.
Qed.

Lemma read_failure_cases arn tags (st : io W) :
  let bucket := bucket_of arn in
  match s3_get_bucket_tagging aws bucket (world st) with
  | (Raise (EClientError ce), w1) =>
      let st1 :=
        logged [if bool_decide (Code ce = py "NoSuchTagSet") then (INFO, BucketWithoutTags)
                else (WARNING, ExistingTagsUnavailable (client_error_str ce))]
          (called [GetBucketTagging bucket] w1 st) in
      let tag_set := tag_list_of tags in
      tag_resource_with_service_api aws arn tags (Some (py "s3")) st
      = match s3_put_bucket_tagging aws bucket tag_set w1 with
        | (Ok _, w2) =>
            (Ok true, logged [(INFO, TagsApplied (size tags) (size tags))]
                        (called [PutBucketTagging bucket tag_set] w2 st1))
        | (Raise e, w2) =>
            (Ok false, logged [(ERROR, ServiceApiError (Some (py "s3")) (exn_str e))]
                         (called [PutBucketTagging bucket tag_set] w2 st1))
        end
  | (Raise (EException text), w1) =>
      tag_resource_with_service_api aws arn tags (Some (py "s3")) st
      = (Ok false, logged [(ERROR, ServiceApiError (Some (py "s3")) text)]
                     (called [GetBucketTagging bucket] w1 st))
  | (Ok _, _) => True
  end.
Proof.
  cbv zeta.
  destruct (s3_get_bucket_tagging aws (bucket_of arn) (world st)) as [[response|[ce|text]] w1] eqn:E.
  - done.
  - rewrite (bucket_path_write aws arn tags st _ _ (read_existing_client_error aws _ st ce w1 E)).
    cbv zeta. rewrite (right_id_L (∅ : dict str) (∪) tags). done.
  - by rewrite (bucket_path_abort aws arn tags st _ _ (read_existing_exception aws _ st text w1 E)).
Qed.

End BucketPath.

(** C6.  On the bucket path the tag set written back is the union of the
    tags read from the bucket (none when the read raised a service error)
    and the new tags, each key once, the new value winning on a collision;
    the tags read are those of the returned tag set; existing [{env:prod}]
    with new [{owner:team-a}] writes [{env:prod, owner:team-a}], and with
    new [{env:staging}] writes [{env:staging}]. *)
Theorem bucket_write_is_union :
  (∀ W (aws : boto3 W) arn tags (st : io W),
     let bucket := bucket_of arn in
     let st' := (tag_resource_with_service_api aws arn tags (Some (py "s3")) st).2 in
     match s3_get_bucket_tagging aws bucket (world st) with
     | (Raise (EException _), _) => calls st' = calls st ++ [GetBucketTagging bucket]
     | (answer, _) =>
         let existing :=
           match answer with
           | Ok response => tags_of_tag_set (default [] (TagSet response))
           | Raise _ => ∅
           end in
         ∃ tag_set,
           calls st' = calls st ++ [GetBucketTagging bucket; PutBucketTagging bucket tag_set]
           ∧ NoDup (Key <$> tag_set)
           ∧ ∀ k v, {| Key := k; Value := v |} ∈ tag_set
                    ↔ tags !! k = Some v ∨ (tags !! k = None ∧ existing !! k = Some v)
     end)
  ∧ (∀ (tag_set : list Tag) k v,
       NoDup (Key <$> tag_set) →
       tags_of_tag_set tag_set !! k = Some v ↔ {| Key := k; Value := v |} ∈ tag_set)
  ∧ tags_of_tag_set <$> written_tag_sets (calls
      (tag_resource_with_service_api scripted (bucket_arn 1) owner_team_a (Some (py "s3"))
         (start quiet)).2)
    = [ {[ py "env" := py "prod"; py "owner" := py "team-a" ]} ]
  ∧ tags_of_tag_set <$> written_tag_sets (calls
      (tag_resource_with_service_api scripted (bucket_arn 1) env_staging (Some (py "s3"))
         (start quiet)).2)
    = [ {[ py "env" := py "staging" ]} ].
Proof.
  split; [intros; apply bucket_write_union|].
  split; [intros; by apply tags_of_tag_set_lookup|].
  split; vm_compute; reflexivity.
Qed.

Lemma bucket_write_is_union_witness :
  tags_of_tag_set [ {| Key := py "env"; Value := py "prod" |} ] !! py "env" = Some (py "prod").
Proof.
  destruct bucket_write_is_union as (_ & Hread & _).
  apply Hread.
  - vm_compute. apply NoDup_singleton.
  - apply list_elem_of_singleton. reflexivity.
Defined.

(** C5 as stated fails: the read raises an exception that is no service
    error (here a timeout), the adapter logs no warning, writes nothing
    and reports failure for the resource. *)
Lemma read_timeout_fails_the_resource :
  let '(result, st') :=
    tag_resource_with_service_api scripted (bucket_arn 1) owner_team_a (Some (py "s3"))
      (start read_times_out) in
  on_put read_times_out = Ok tt
  ∧ result = Ok false
  ∧ written_tag_sets (calls st') = []
  ∧ filter (λ entry, entry.1 = WARNING) (logs st') = []
  ∧ logs st' = [(ERROR, ServiceApiError (Some (py "s3")) (py "Read timed out"))].
Proof. vm_compute. repeat split. Qed.

(** C5, as the code has it.  A service error ([ClientError]) raised by the
    read is tolerated: it is logged (as a warning unless its code is
    [NoSuchTagSet]), the existing tags count as empty, the new tags are
    written, and the result is that of the write alone.  Any other
    exception raised by the read ends the attempt: it is logged as an
    error, nothing is written and the resource is reported failed. *)
Theorem read_failure_tolerated :
  ∀ W (aws : boto3 W) arn tags (st : io W),
    let bucket := bucket_of arn in
    match s3_get_bucket_tagging aws bucket (world st) with
    | (Raise (EClientError ce), w1) =>
        let st1 :=
          logged [if bool_decide (Code ce = py "NoSuchTagSet") then (INFO, BucketWithoutTags)
                  else (WARNING, ExistingTagsUnavailable (client_error_str ce))]
            (called [GetBucketTagging bucket] w1 st) in
        let tag_set := tag_list_of tags in
        tag_resource_with_service_api aws arn tags (Some (py "s3")) st
        = match s3_put_bucket_tagging aws bucket tag_set w1 with
          | (Ok _, w2) =>
              (Ok true, logged [(INFO, TagsApplied (size tags) (size tags))]
                          (called [PutBucketTagging bucket tag_set] w2 st1))
          | (Raise e, w2) =>
              (Ok false, logged [(ERROR, ServiceApiError (Some (py "s3")) (exn_str e))]
                           (called [PutBucketTagging bucket tag_set] w2 st1))
          end
    | (Raise (EException text), w1) =>
        tag_resource_with_service_api aws arn tags (Some (py "s3")) st
        = (Ok false, logged [(ERROR, ServiceApiError (Some (py "s3")) text)]
                       (called [GetBucketTagging bucket] w1 st))
    | (Ok _, _) => True
    end.
Proof. intros. apply read_failure_cases. Qed.

Example read_denied_is_tolerated :
  let '(result, st') :=
    tag_resource_with_service_api scripted (bucket_arn 1) owner_team_a (Some (py "s3"))
      (start read_denied) in
  result = Ok true
  ∧ tags_of_tag_set <$> written_tag_sets (calls st') = [owner_team_a]
  ∧ filter (λ entry, entry.1 = WARNING) (logs st')
    = [(WARNING, ExistingTagsUnavailable (client_error_str access_denied))].
Proof. vm_compute. repeat split. Qed.

(** ** Chunking *)

Section Batches.
Context {A : Type}.
Implicit Types l : list A.

Lemma chunk_count_step n len :
  0 < n → 0 < len → (len + n - 1) / n = S ((len - n + n - 1) / n).
Proof.
  intros Hn Hlen. destruct (le_lt_dec len n) as [Hle|Hlt].
  - rewrite (Nat.div_small (len - n + n - 1) n) by lia.
    symmetry. apply (Nat.div_unique _ _ _ (len - 1)); lia.
  - replace (len + n - 1) with ((len - n + n - 1) + 1 * n) by lia.
    rewrite Nat.div_add by lia. lia.
Qed.

Lemma batches_nil n : batches n (@nil A) = [].
Proof.
  unfold batches, py_range. cbn [length].
  destruct n as [|n]; [done|].
  by rewrite Nat.div_small by lia.
Qed.

Lemma batches_cons n l :
  0 < n → l ≠ [] → batches n l = take n l :: batches n (drop n l).
Proof.
  intros Hn Hl. unfold batches, py_range.
  assert (0 < length l) by (destruct l; [done|cbn; lia]).
  rewrite chunk_count_step by done.
  cbn [seq fmap list_fmap]. f_equal.
  - unfold slice. cbn. by rewrite Nat.sub_0_r.
  - rewrite length_drop, <- fmap_S_seq, <- !list_fmap_compose.
    apply list_fmap_ext. intros _ k _. cbn. unfold slice.
    rewrite drop_drop. f_equal. lia.
Qed.

Lemma batches_ind n (P : list A → list (list A) → Prop) :
  0 < n →
  P [] [] →
  (∀ l, l ≠ [] → P (drop n l) (batches n (drop n l)) →
        P l (take n l :: batches n (drop n l))) →
  ∀ l, P l (batches n l).
Proof.
  intros Hn Hnil Hcons l.
  remember (length l) as m eqn:Hm. revert l Hm.
  induction m as [m IH] using lt_wf_ind. intros l ->.
  destruct (decide (l = [])) as [->|Hl].
  - by rewrite batches_nil.
  - rewrite batches_cons by done. apply Hcons; [done|].
    apply (IH (length (drop n l))); [|done].
    rewrite length_drop. destruct l; [done|cbn; lia].
Qed.

Lemma batches_concat n l : 0 < n → concat (batches n l) = l.
Proof.
  intros Hn. apply (batches_ind n (λ l chunks, concat chunks = l)); [done..|].
  intros l' _ IH. cbn. by rewrite IH, take_drop.
Qed.


Lemma batches_empty_iff n l : 0 < n → batches n l = [] ↔ l = [].
Proof.
  intros Hn. split; [|intros ->; apply batches_nil].
  intros E. destruct (decide (l = [])) as [|Hl]; [done|].
  by rewrite batches_cons in E.
Qed.


End Batches.



(** ** The orchestrator *)

Lemma mark_all_lookup (info : FailureInfo) (arns : list str) (failed : dict FailureInfo) (arn : str) :
  mark_all info arns failed !! arn
  = if decide (arn ∈ arns) then Some info else failed !! arn.
Proof.
  unfold mark_all. revert failed.
  induction arns as [|a arns IH]; intros failed; cbn [foldl].
  - rewrite decide_False; [done|apply not_elem_of_nil].
  - rewrite IH. destruct (decide (arn ∈ arns)) as [Hin|Hout].
    + rewrite decide_True; [done|by right].
    + destruct (decide (a = arn)) as [->|Hne].
      * rewrite decide_True by left. apply lookup_insert_eq.
      * rewrite decide_False by (intros [?|?]%elem_of_cons; done).
        by apply lookup_insert_ne.
Qed.

Lemma mark_all_size (info : FailureInfo) (arns : list str) (failed : dict FailureInfo) :
  NoDup arns → (∀ arn, arn ∈ arns → failed !! arn = None) →
  size (mark_all info arns failed) = size failed + length arns.
Proof.
  unfold mark_all. revert failed.
  induction arns as [|a arns IH]; intros failed Hnd Hfresh; cbn [foldl length]; [lia|].
  apply NoDup_cons in Hnd as [Ha Hnd].
  rewrite IH; [|done|].
  - rewrite map_size_insert_None; [lia|]. apply Hfresh. left.
  - intros arn Hin. rewrite lookup_insert_ne by (intros ->; done).
    apply Hfresh. by right.
Qed.

Lemma filter_split_length {A} (P : A → Prop) `{!∀ x, Decision (P x)} (l : list A) :
  length (filter P l) + length (filter (λ x, ¬ P x) l) = length l.
Proof.
  induction l as [|x l IH]; [done|].
  rewrite !filter_cons. destruct (decide (P x)).
  - rewrite decide_False by tauto. cbn. lia.
  - rewrite decide_True by done. cbn. lia.
Qed.

Lemma filter_split_NoDup {A} (P : A → Prop) `{!∀ x, Decision (P x)} (l : list A) :
  NoDup l → NoDup (filter P l ++ filter (λ x, ¬ P x) l).
Proof.
  intros Hnd. apply NoDup_app. split; [by apply NoDup_filter|].
  split; [|by apply NoDup_filter].
  intros x [HP _]%list_elem_of_filter [HnP _]%list_elem_of_filter. done.
Qed.

Section Orchestrator.
Context {W : Type} (aws : boto3 W).
Implicit Types f : @frame W.

Lemma process_specific_run tags arn f ok st' :
  tag_resource_with_service_api aws arn tags (get_service_from_arn arn) (env f) = (Ok ok, st') →
  process_specific aws tags arn f
  = (Ok tt,
     if ok
     then {| total_success_count := total_success_count f + 1;
             total_failed := total_failed f; env := st' |}
     else {| total_success_count := total_success_count f;
             total_failed :=
               <[arn := service_specific_failure (get_service_from_arn arn)]> (total_failed f);
             env := st' |}).
Proof.
  intros E. unfold process_specific. run_monad. rewrite E. by destruct ok.
Qed.

Lemma mark_all_run (info : FailureInfo) (arns : list str) f :
  for_each arns (λ arn, set_failed arn info) f
  = (Ok tt, {| total_success_count := total_success_count f;
               total_failed := mark_all info arns (total_failed f); env := env f |}).
Proof.
  revert f. induction arns as [|a arns IH]; intros f; cbn [for_each].
  - by destruct f.
  - run_monad. unfold set_failed at 1. by rewrite IH.
Qed.

Lemma process_batch_ok tags batch_arns f response w1 :
  tagging_tag_resources aws batch_arns tags (world (env f)) = (Ok response, w1) →
  process_batch aws tags batch_arns f
  = (Ok tt,
     {| total_success_count :=
          (total_success_count f
           + (Z.of_nat (length batch_arns)
              - Z.of_nat (size (default ∅ (FailedResourcesMap response)))))%Z;
        total_failed := default ∅ (FailedResourcesMap response) ∪ total_failed f;
        env := called [TagResources batch_arns tags] w1 (env f) |}).
Proof. intros E. unfold process_batch. run_monad. by rewrite E. Qed.

Lemma process_batch_client_error tags batch_arns f ce w1 :
  tagging_tag_resources aws batch_arns tags (world (env f)) = (Raise (EClientError ce), w1) →
  process_batch aws tags batch_arns f
  = (Ok tt,
     {| total_success_count := total_success_count f;
        total_failed := mark_all (client_error_failure ce) batch_arns (total_failed f);
        env := called [TagResources batch_arns tags] w1 (env f) |}).
Proof.
  intros E. unfold process_batch. run_monad. rewrite E.
  by rewrite mark_all_run.
Qed.

Lemma process_batch_exception tags batch_arns f text w1 :
  tagging_tag_resources aws batch_arns tags (world (env f)) = (Raise (EException text), w1) →
  process_batch aws tags batch_arns f
  = (Raise (EException text),
     {| total_success_count := total_success_count f;
        total_failed := total_failed f;
        env := called [TagResources batch_arns tags] w1 (env f) |}).
Proof. intros E. unfold process_batch. run_monad. by rewrite E. Qed.

Lemma for_each_cons {S A} (x : A) l (body : A → M S unit) s :
  for_each (x :: l) body s
  = match body x s with
    | (Ok _, s') => for_each l body s'
    | (Raise e, s') => (Raise e, s')
    end.
Proof. cbn [for_each]. run_monad. by destruct (body x s) as [[[]|e] s']. Qed.

(** One bulk request per chunk, in order, until a chunk ends the loop by
    an exception that is no service error. *)
Lemma batch_loop_calls tags (chunks : list (list str)) f :
  ∃ n, n ≤ length chunks
       ∧ calls (env (for_each chunks (process_batch aws tags) f).2)
         = calls (env f) ++ ((λ chunk, TagResources chunk tags) <$> take n chunks)
       ∧ match (for_each chunks (process_batch aws tags) f).1 with
         | Ok _ => n = length chunks
         | Raise e => 0 < n ∧ ∃ text, e = EException text
         end.
Proof.
  revert f. induction chunks as [|chunk chunks IH]; intros f.
  - exists 0. cbn. by rewrite app_nil_r.
  - rewrite for_each_cons.
    destruct (tagging_tag_resources aws chunk tags (world (env f)))
      as [[response|[ce|text]] w1] eqn:E.
    + rewrite (process_batch_ok _ _ _ _ _ E).
      destruct (IH {| total_success_count :=
          (total_success_count f
           + (Z.of_nat (length chunk)
              - Z.of_nat (size (default ∅ (FailedResourcesMap response)))))%Z;
        total_failed := default ∅ (FailedResourcesMap response) ∪ total_failed f;
        env := called [TagResources chunk tags] w1 (env f) |}) as (n & Hn & Hcalls & Hres).
      exists (S n). split; [cbn; lia|]. split.
      * rewrite Hcalls. cbn. by rewrite <- app_assoc.
      * destruct (for_each chunks _ _).1; [cbn; lia|]. split; [lia|tauto].
    + rewrite (process_batch_client_error _ _ _ _ _ E).
      destruct (IH {| total_success_count := total_success_count f;
        total_failed := mark_all (client_error_failure ce) chunk (total_failed f);
        env := called [TagResources chunk tags] w1 (env f) |}) as (n & Hn & Hcalls & Hres).
      exists (S n). split; [cbn; lia|]. split.
      * rewrite Hcalls. cbn. by rewrite <- app_assoc.
      * destruct (for_each chunks _ _).1; [cbn; lia|]. split; [lia|tauto].
    + rewrite (process_batch_exception _ _ _ _ _ E).
      exists 1. cbn. split; [lia|]. split; [by rewrite take_0|]. split; [lia|eauto].
Qed.


(** The batch loop against the answers of the world: it stops at the first
    answer that is an exception other than a service error, and only
    there. *)
Lemma batch_loop_answers tags (chunks : list (list str)) f :
  match first_unexpected (answers_to aws tags chunks (world (env f))) with
  | None =>
      (for_each chunks (process_batch aws tags) f).1 = Ok tt
      ∧ calls (env (for_each chunks (process_batch aws tags) f).2)
        = calls (env f) ++ ((λ chunk, TagResources chunk tags) <$> chunks)
  | Some (i, text) =>
      (for_each chunks (process_batch aws tags) f).1 = Raise (EException text)
      ∧ calls (env (for_each chunks (process_batch aws tags) f).2)
        = calls (env f) ++ ((λ chunk, TagResources chunk tags) <$> take (S i) chunks)
      ∧ i < length chunks
  end.
Proof.
  revert f. induction chunks as [|chunk chunks IH]; intros f.
  - cbn. by rewrite app_nil_r.
  - rewrite for_each_cons. cbn [answers_to].
    destruct (tagging_tag_resources aws chunk tags (world (env f)))
      as [[response|[ce|text]] w1] eqn:E; cbn [first_unexpected].
    + rewrite (process_batch_ok _ _ _ _ _ E).
      match goal with |- context [for_each chunks _ ?f1] => specialize (IH f1) end.
      cbn [env world called] in IH.
      destruct (first_unexpected (answers_to aws tags chunks w1)) as [[i text]|]; cbn.
      * destruct IH as (Hres & Hcalls & Hi). split; [done|]. split; [|lia].
        rewrite Hcalls. cbn. by rewrite <- app_assoc.
      * destruct IH as (Hres & Hcalls). split; [done|].
        rewrite Hcalls. cbn. by rewrite <- app_assoc.
    + rewrite (process_batch_client_error _ _ _ _ _ E).
      match goal with |- context [for_each chunks _ ?f1] => specialize (IH f1) end.
      cbn [env world called] in IH.
      destruct (first_unexpected (answers_to aws tags chunks w1)) as [[i text]|]; cbn.
      * destruct IH as (Hres & Hcalls & Hi). split; [done|]. split; [|lia].
        rewrite Hcalls. cbn. by rewrite <- app_assoc.
      * destruct IH as (Hres & Hcalls). split; [done|].
        rewrite Hcalls. cbn. by rewrite <- app_assoc.
    + rewrite (process_batch_exception _ _ _ _ _ E). cbn.
      split; [done|]. split; [by rewrite take_0|lia].
Qed.

Lemma batch_engine_loop tags (l : list str) :
  batch_engine aws tags l = for_each (batches BATCH_SIZE l) (process_batch aws tags).
Proof.
  unfold batch_engine. case_bool_decide as Hl; [done|].
  assert (l = []) as -> by (by destruct l). by rewrite batches_nil.
Qed.

(** *** Accounting *)

Lemma size_within (m : dict FailureInfo) (arns : list str) :
  (∀ arn, is_Some (m !! arn) → arn ∈ arns) → size m ≤ length arns.
Proof.
  intros Hin. rewrite <- (length_map_to_list m), <- (length_fmap fst).
  apply submseteq_length, NoDup_submseteq; [apply NoDup_fst_map_to_list|].
  intros k ([k' v] & -> & Hkv)%list_elem_of_fmap.
  apply Hin. apply elem_of_map_to_list in Hkv. by exists v.
Qed.

Lemma specific_step_accounted tags (arn : str) (seen : list str) f :
  arn ∉ seen → accounted_for seen f →
  ∃ f', process_specific aws tags arn f = (Ok tt, f') ∧ accounted_for (seen ++ [arn]) f'.
Proof.
  intros Hfresh (Hpos & Hcount & Hkeys).
  destruct (adapter_never_raises aws arn tags (get_service_from_arn arn) (env f))
    as (ok & st' & E).
  rewrite (process_specific_run _ _ _ _ _ E). eexists. split; [done|].
  unfold accounted_for. rewrite length_app. cbn [length].
  destruct ok; cbn.
  - split; [lia|]. split; [lia|]. intros a Ha. apply elem_of_app. left. by apply Hkeys.
  - assert (total_failed f !! arn = None) as Hnone.
    { destruct (total_failed f !! arn) eqn:Ha; [|done]. exfalso. apply Hfresh, Hkeys. eauto. }
    rewrite map_size_insert_None by done. split; [lia|]. split; [lia|].
    intros a Ha. apply elem_of_app. destruct (decide (arn = a)) as [->|Hne].
    + right. by left.
    + left. apply Hkeys. by rewrite lookup_insert_ne in Ha.
Qed.

Lemma specific_loop_accounted tags (l seen : list str) f :
  NoDup l → (∀ arn, arn ∈ l → arn ∉ seen) → accounted_for seen f →
  ∃ f', for_each l (process_specific aws tags) f = (Ok tt, f') ∧ accounted_for (seen ++ l) f'.
Proof.
  revert seen f. induction l as [|arn l IH]; intros seen f Hnd Hfresh Hacc.
  - exists f. by rewrite app_nil_r.
  - apply NoDup_cons in Hnd as [Harn Hnd].
    destruct (specific_step_accounted tags arn seen f) as (f1 & E1 & Hacc1);
      [apply Hfresh; left|done|].
    destruct (IH (seen ++ [arn]) f1) as (f' & E' & Hacc'); [done| |done|].
    { intros a Ha [Hs|Hs%list_elem_of_singleton]%elem_of_app.
      - apply (Hfresh a); [by right|done].
      - by subst. }
    exists f'. rewrite for_each_cons, E1. split; [done|].
    by rewrite <- app_assoc in Hacc'.
Qed.

Lemma batch_step_accounted tags (chunk seen : list str) f f' :
  answers_within_request aws →
  NoDup chunk → (∀ arn, arn ∈ chunk → arn ∉ seen) → accounted_for seen f →
  process_batch aws tags chunk f = (Ok tt, f') →
  accounted_for (seen ++ chunk) f'.
Proof.
  intros Hwithin Hnd Hfresh (Hpos & Hcount & Hkeys).
  assert (∀ arn, arn ∈ chunk → total_failed f !! arn = None) as Hnone.
  { intros a Ha. destruct (total_failed f !! a) eqn:E; [|done].
    exfalso. apply (Hfresh a Ha), Hkeys. eauto. }
  destruct (tagging_tag_resources aws chunk tags (world (env f)))
    as [[response|[ce|text]] w1] eqn:E.
  - rewrite (process_batch_ok _ _ _ _ _ E). intros [= <-].
    specialize (Hwithin _ _ _ _ _ E).
    set (batch_failed := default ∅ (FailedResourcesMap response)) in *.
    pose proof (size_within batch_failed chunk Hwithin) as Hsize.
    assert (batch_failed ##ₘ total_failed f) as Hdisj.
    { apply map_disjoint_spec. intros a x y Hx Hy.
      rewrite Hnone in Hy; [done|]. apply Hwithin. eauto. }
    unfold accounted_for. cbn. rewrite length_app, map_size_disj_union by done.
    split; [lia|]. split; [lia|].
    intros a [x [Hx|[_ Hx]]%lookup_union_Some_raw]; apply elem_of_app.
    + right. apply Hwithin. eauto.
    + left. apply Hkeys. eauto.
  - rewrite (process_batch_client_error _ _ _ _ _ E). intros [= <-].
    unfold accounted_for. cbn. rewrite length_app, mark_all_size by done.
    split; [lia|]. split; [lia|].
    intros a Ha. rewrite mark_all_lookup in Ha. apply elem_of_app.
    destruct (decide (a ∈ chunk)); [by right|left; by apply Hkeys].
  - rewrite (process_batch_exception _ _ _ _ _ E). discriminate.
Qed.

Lemma batch_loop_accounted tags (chunks : list (list str)) (seen : list str) f f' :
  answers_within_request aws →
  NoDup (concat chunks) → (∀ arn, arn ∈ concat chunks → arn ∉ seen) →
  accounted_for seen f →
  for_each chunks (process_batch aws tags) f = (Ok tt, f') →
  accounted_for (seen ++ concat chunks) f'.
Proof.
  intros Hwithin. revert seen f.
  induction chunks as [|chunk chunks IH]; intros seen f Hnd Hfresh Hacc.
  - cbn. intros [= <-]. by rewrite app_nil_r.
  - cbn [concat] in *. apply NoDup_app in Hnd as (Hnd1 & Hsep & Hnd2).
    rewrite for_each_cons.
    destruct (process_batch aws tags chunk f) as [[[]|e] f1] eqn:E1; [|discriminate].
    intros E'. rewrite app_assoc. apply (IH _ f1); [done| | |done].
    + intros a Ha [Hs|Hs]%elem_of_app.
      * apply (Hfresh a); [apply elem_of_app; by right|done].
      * by apply (Hsep a).
    + eapply batch_step_accounted; [done|done| |done|done].
      intros a Ha. apply Hfresh, elem_of_app. by left.
Qed.

Lemma run_accounted (resource_arns : list str) tags (e : io W) f :
  NoDup resource_arns → answers_within_request aws →
  run aws resource_arns tags e = (Ok tt, f) →
  accounted_for resource_arns f.
Proof.
  intros Hnd Hwithin. unfold run, apply_tags_body.
  pose proof (filter_split_NoDup
                (λ arn, is_unsupported (get_service_from_arn arn) = true) _ Hnd) as Hnd'.
  fold (service_specific_arns resource_arns) in Hnd'.
  fold (resource_groups_arns resource_arns) in Hnd'.
  apply NoDup_app in Hnd' as (Hnd1 & Hsep & Hnd2).
  destruct (specific_loop_accounted tags (service_specific_arns resource_arns) []
              (new_frame e)) as (f1 & E1 & Hacc1); [done|by intros ? _ ?%elem_of_nil| |].
  { unfold accounted_for. cbn. rewrite map_size_empty. split; [lia|]. split; [done|].
    intros a Ha. rewrite lookup_empty in Ha. by destruct Ha. }
  run_monad. rewrite E1, batch_engine_loop. intros E2. cbn [app] in Hacc1.
  pose proof (batch_loop_accounted tags
                (batches BATCH_SIZE (resource_groups_arns resource_arns))
                (service_specific_arns resource_arns) f1 f Hwithin) as Hacc.
  rewrite batches_concat in Hacc by (unfold BATCH_SIZE; lia).
  destruct Hacc as (Hpos & Hcount & Hkeys); [done| |done|done|].
  { intros a Ha Hs. by apply (Hsep a). }
  split; [done|]. split.
  - rewrite Hcount, length_app. f_equal. apply filter_split_length.
  - intros a [Ha|Ha]%Hkeys%elem_of_app; by apply list_elem_of_filter in Ha as [_ ?].
Qed.

End Orchestrator.

(** ** The report *)

Lemma selective_within bad : answers_within_request (selective bad).
Proof.
  intros arns tags [] response [] [= <-] arn [info Hin]. cbn in Hin.
  apply elem_of_list_to_map_2 in Hin.
  apply list_elem_of_fmap in Hin as (a & [= -> _] & Ha).
  by apply list_elem_of_filter in Ha as [_ ?].
Qed.

Lemma completed_result {B} (x : res unit * B) : completed x.1 = true → x = (Ok tt, x.2).
Proof. by destruct x as [[[]|e] b]. Qed.

(** C1 as stated fails.  An identifier given twice whose dedicated call
    fails both times is one entry of the failure map: successes and
    failure entries add up to 1 for 2 identifiers.  And an identifier
    given twice in a bulk request that fails for it is counted as a
    success once and is in the failure map as well. *)
Lemma duplicate_identifier_breaks_accounting :
  (let '(r, f) := run scripted [bucket_arn 1; bucket_arn 1] owner_team_a (start write_denied) in
   r = Ok tt
   ∧ total_success_count f = 0%Z
   ∧ size (total_failed f) = 1
   ∧ (total_success_count f + Z.of_nat (size (total_failed f)))%Z
     ≠ Z.of_nat (length [bucket_arn 1; bucket_arn 1]))
  ∧ (let '(r, f) :=
       run (selective (λ arn, bool_decide (arn = instance_arn 0)))
         [instance_arn 0; instance_arn 0] owner_team_a (start tt) in
     r = Ok tt
     ∧ total_success_count f = 1%Z
     ∧ map_to_list (total_failed f) = [(instance_arn 0, invalid_arn_info)]).
Proof. vm_compute. repeat split; discriminate. Qed.

(** C1, as the code has it.  When the identifiers are pairwise distinct,
    the bulk API reports failures only for identifiers of the request, and
    the run reaches its summary, the success count (which is not
    negative) and the number of failure entries add up to the number of
    identifiers, and every failure entry belongs to an input identifier. *)
Theorem every_identifier_accounted_once :
  ∀ W (aws : boto3 W) (resource_arns : list str) tags (e : io W) f,
    NoDup resource_arns →
    answers_within_request aws →
    run aws resource_arns tags e = (Ok tt, f) →
    (0 ≤ total_success_count f)%Z
    ∧ (total_success_count f + Z.of_nat (size (total_failed f)))%Z
      = Z.of_nat (length resource_arns)
    ∧ ∀ arn, is_Some (total_failed f !! arn) → arn ∈ resource_arns.
Proof. intros W aws resource_arns tags e f Hnd Hwithin E. by eapply run_accounted. Qed.

Lemma every_identifier_accounted_once_witness :
  let f := (run picky [bucket_arn 1; bucket_arn 2; instance_arn 0; instance_arn 1]
              owner_team_a (start tt)).2 in
  (0 ≤ total_success_count f)%Z
  ∧ (total_success_count f + Z.of_nat (size (total_failed f)))%Z = 4%Z
  ∧ ∀ arn, is_Some (total_failed f !! arn)
           → arn ∈ [bucket_arn 1; bucket_arn 2; instance_arn 0; instance_arn 1].
Proof.
  cbv zeta.
  apply (every_identifier_accounted_once unit picky
           [bucket_arn 1; bucket_arn 2; instance_arn 0; instance_arn 1]
           owner_team_a (start tt)).
  - by_computation.
  - apply selective_within.
  - apply completed_result. vm_compute. reflexivity.
Defined.

(** The other two conditions are needed as well. *)
Example aborted_run_accounts_for_nothing :
  let '(r, f) := run scripted [instance_arn 0] owner_team_a (start bulk_unreachable) in
  completed r = false
  ∧ (total_success_count f + Z.of_nat (size (total_failed f)))%Z = 0%Z.
Proof. vm_compute. repeat split. Qed.

Example foreign_failure_entry_breaks_the_count :
  let '(r, f) :=
    run scripted [bucket_arn 1; instance_arn 0] owner_team_a (start bulk_blames_bucket) in
  r = Ok tt
  ∧ (total_success_count f + Z.of_nat (size (total_failed f)))%Z = 1%Z.
Proof. vm_compute. repeat split. Qed.




(** Three answers of which the second is a timeout: two requests are
    sent, and the timeout is how the engine ends. *)
Example engine_stops_at_second_answer :
  let w := {| on_get := Ok {| TagSet := None |}; on_put := Ok tt; on_tag := Ok tt;
              on_bulk := [Raise (EClientError throttled);
                          Raise (EException (py "Read timed out"))] |} in
  first_unexpected (answers_to scripted owner_team_a (batches BATCH_SIZE forty_five) w)
  = Some (1, py "Read timed out")
  ∧ (batch_engine scripted owner_team_a forty_five (new_frame (start w))).1
    = Raise (EException (py "Read timed out"))
  ∧ bulk_requests (calls (env (batch_engine scripted owner_team_a forty_five
                                 (new_frame (start w))).2))
    = [take 20 forty_five; take 20 (drop 20 forty_five)].
Proof. vm_compute. repeat split. Qed.

(** C3.  When the bulk call for a chunk raises a service error, the loop
    goes on to the next chunk after recording every identifier of the
    chunk in the failure map with the error's code and message; the
    success count does not move and the entries of identifiers outside the
    chunk stay as they were. *)
Theorem chunk_error_fails_whole_chunk :
  ∀ W (aws : boto3 W) tags (batch_arns : list str) (f : @frame W) ce w1,
    tagging_tag_resources aws batch_arns tags (world (env f)) = (Raise (EClientError ce), w1) →
    ∃ f', process_batch aws tags batch_arns f = (Ok tt, f')
          ∧ total_success_count f' = total_success_count f
          ∧ (∀ arn, arn ∈ batch_arns →
               total_failed f' !! arn
               = Some {| StatusCode := None; ErrorCode := Some (Code ce);
                         ErrorMessage := Some (Message ce) |})
          ∧ (∀ arn, arn ∉ batch_arns → total_failed f' !! arn = total_failed f !! arn)
          ∧ env f' = called [TagResources batch_arns tags] w1 (env f).
Proof.
  intros W aws tags batch_arns f ce w1 E.
  eexists. split; [by apply process_batch_client_error|]. cbn.
  split; [done|]. split; [|split; [|done]].
  - intros arn Hin. rewrite mark_all_lookup. by rewrite decide_True.
  - intros arn Hout. rewrite mark_all_lookup. by rewrite decide_False.
Qed.

Lemma chunk_error_fails_whole_chunk_witness :
  ∃ f', process_batch scripted owner_team_a [instance_arn 0; instance_arn 1]
          (new_frame (start bulk_throttled)) = (Ok tt, f')
        ∧ total_success_count f' = 0%Z
        ∧ (∀ arn, arn ∈ [instance_arn 0; instance_arn 1] →
             total_failed f' !! arn
             = Some {| StatusCode := None; ErrorCode := Some (Code throttled);
                       ErrorMessage := Some (Message throttled) |})
        ∧ (∀ arn, arn ∉ [instance_arn 0; instance_arn 1] → total_failed f' !! arn = None)
        ∧ env f' = called [TagResources [instance_arn 0; instance_arn 1] owner_team_a]
                     {| on_get := Ok {| TagSet := None |}; on_put := Ok tt; on_tag := Ok tt;
                        on_bulk := [] |}
                     (start bulk_throttled).
Proof.
  apply (chunk_error_fails_whole_chunk script scripted owner_team_a
           [instance_arn 0; instance_arn 1] (new_frame (start bulk_throttled)) throttled).
  reflexivity.
Defined.

(** The second of three chunks raises: its 20 identifiers, and only they,
    are in the failure map; the 25 others are counted as successes. *)
Example second_chunk_of_three_fails :
  let '(r, f) := run scripted forty_five owner_team_a (start second_chunk_throttled) in
  r = Ok tt
  ∧ total_success_count f = 25%Z
  ∧ size (total_failed f) = 20
  ∧ (λ arn, total_failed f !! arn) <$> forty_five
    = replicate 20 None
      ++ replicate 20 (Some {| StatusCode := None; ErrorCode := Some (Code throttled);
                               ErrorMessage := Some (Message throttled) |})
      ++ replicate 5 None
  ∧ bulk_requests (calls (env f)) = batches BATCH_SIZE forty_five.
Proof. vm_compute. repeat split. Qed.

(** C4 as stated fails: the write to the bucket raises a service error
    with message "Access Denied"; the entry recorded for the bucket has
    the fixed code and a message that names only the service, neither the
    error's message nor its text. *)
Lemma adapter_failure_drops_the_exception_message :
  (service_api_body scripted (bucket_arn 1) owner_team_a (Some (py "s3"))
     (start write_denied)).1 = Raise (EClientError access_denied)
  ∧ total_failed (run scripted [bucket_arn 1] owner_team_a (start write_denied)).2
    !! bucket_arn 1
    = Some {| StatusCode := None;
              ErrorCode := Some (py "ServiceSpecificAPIError");
              ErrorMessage := Some (py "Error usando API espec" ++ [237%N] ++ py "fica de s3") |}
  ∧ Some (py "Error usando API espec" ++ [237%N] ++ py "fica de s3")
    ≠ Some (Message access_denied)
  ∧ Some (py "Error usando API espec" ++ [237%N] ++ py "fica de s3")
    ≠ Some (client_error_str access_denied).
Proof. vm_compute. repeat split; discriminate. Qed.

(** C4, as the code has it.  When the adapter's call for a resource raises
    an exception, the entry recorded for the resource has the code
    [ServiceSpecificAPIError] and a fixed message that names the service;
    the text of the exception goes to the error log and nowhere else, and
    the success count does not move. *)
Theorem adapter_failure_is_generic :
  ∀ W (aws : boto3 W) tags (arn : str) (f : @frame W) e st1,
    service_api_body aws arn tags (get_service_from_arn arn) (env f) = (Raise e, st1) →
    process_specific aws tags arn f
    = (Ok tt,
       {| total_success_count := total_success_count f;
          total_failed :=
            <[arn := {| StatusCode := None;
                        ErrorCode := Some (py "ServiceSpecificAPIError");
                        ErrorMessage :=
                          Some (py "Error usando API espec" ++ [237%N] ++ py "fica de "
                                ++ format_service (get_service_from_arn arn)) |}]>
              (total_failed f);
          env := logged [(ERROR, ServiceApiError (get_service_from_arn arn) (exn_str e))] st1 |}).
Proof.
  intros W aws tags arn f e st1 E.
  by rewrite (process_specific_run aws tags arn f false _ (adapter_on_exception aws _ _ _ _ _ _ E)).
Qed.

Lemma adapter_failure_is_generic_witness :
  logs (env (process_specific scripted owner_team_a (bucket_arn 1)
               (new_frame (start write_denied))).2)
  = [(INFO, BucketWithoutTags);
     (ERROR, ServiceApiError (Some (py "s3")) (client_error_str access_denied))].
Proof.
  rewrite (adapter_failure_is_generic script scripted owner_team_a (bucket_arn 1)
             (new_frame (start write_denied)) (EClientError access_denied)
             (service_api_body scripted (bucket_arn 1) owner_team_a (Some (py "s3"))
                (start write_denied)).2).
  - vm_compute. reflexivity.
  - vm_compute. reflexivity.
Defined.

(** C7 as stated fails: the only bulk call raises an exception that is no
    service error; nothing is in the failure map, and yet the outcome is
    failure. *)
Lemma aborted_run_fails_without_failures :
  map_to_list (total_failed (run scripted [instance_arn 0] owner_team_a
                               (start bulk_unreachable)).2) = []
  ∧ (apply_tags_to_resources scripted [instance_arn 0] owner_team_a
       (start bulk_unreachable)).1 = false.
Proof. vm_compute. repeat split. Qed.

(** C7, as the code has it.  The outcome is success exactly when the run
    reaches its summary with an empty failure map; with an entry in the
    failure map the outcome is failure whatever the success count, and so
    it is when an exception ends the run before the summary. *)
Theorem outcome_success_iff :
  ∀ W (aws : boto3 W) (resource_arns : list str) tags (e : io W),
    apply_tags_to_resources aws resource_arns tags e
    = (completed (run aws resource_arns tags e).1
       && bool_decide (total_failed (run aws resource_arns tags e).2 = ∅),
       env (run aws resource_arns tags e).2)
    ∧ (total_failed (run aws resource_arns tags e).2 ≠ ∅ →
       (apply_tags_to_resources aws resource_arns tags e).1 = false).
Proof.
  intros W aws resource_arns tags e.
  assert (apply_tags_to_resources aws resource_arns tags e
          = (completed (run aws resource_arns tags e).1
             && bool_decide (total_failed (run aws resource_arns tags e).2 = ∅),
             env (run aws resource_arns tags e).2)) as Heq.
  { unfold apply_tags_to_resources.
    destruct (run aws resource_arns tags e) as [[[]|[ce|text]] f]; cbn; [|done..].
    f_equal. apply bool_decide_ext, map_size_empty_iff. }
  split; [done|]. intros Hne. rewrite Heq. cbn.
  rewrite (bool_decide_false _ Hne). apply andb_false_r.
Qed.

Lemma outcome_success_iff_witness :
  (apply_tags_to_resources scripted [bucket_arn 1; instance_arn 3] owner_team_a
     (start write_denied)).1 = false.
Proof.
  apply (outcome_success_iff script scripted [bucket_arn 1; instance_arn 3] owner_team_a
           (start write_denied)).
  intros Hempty. apply (f_equal size) in Hempty. vm_compute in Hempty. discriminate.
Defined.

Example one_failure_among_successes :
  let e := start write_denied in
  let arns := bucket_arn 1 :: forty_five in
  total_success_count (run scripted arns owner_team_a e).2 = 45%Z
  ∧ size (total_failed (run scripted arns owner_team_a e).2) = 1
  ∧ (apply_tags_to_resources scripted arns owner_team_a e).1 = false.
Proof. vm_compute. repeat split. Qed.

(** * Further properties of the parsers *)

Section MoreStrings.
Import PyStr.

Lemma split_char_app c k v : c ∉ k → split [c] None (k ++ c :: v) = k :: split [c] None v.
Proof.
  unfold split. induction k as [|x k IH]; intros Hc; cbn [app].
  - rewrite split_char_cons. by rewrite !bool_decide_true.
  - rewrite split_char_cons.
    rewrite (bool_decide_false (c = x)) by (intros ->; apply Hc; left).
    rewrite andb_false_r, IH; [done|]. intros ?. apply Hc. by right.
Qed.

Lemma split_char_absent c s : c ∉ s → split [c] None s = [s].
Proof.
  unfold split. induction s as [|x s IH]; intros Hc; [done|].
  rewrite split_char_cons.
  rewrite (bool_decide_false (c = x)) by (intros ->; apply Hc; left).
  rewrite andb_false_r, IH; [done|]. intros ?. apply Hc. by right.
Qed.

(** Splitting undoes joining. *)
Lemma split_join c (pieces : list str) :
  pieces ≠ [] → Forall (λ piece, c ∉ piece) pieces →
  split [c] None (join [c] pieces) = pieces.
Proof.
  induction pieces as [|piece [|piece' pieces] IH]; intros Hne Hall; [done| |].
  - inversion Hall; subst. by apply split_char_absent.
  - inversion Hall as [|? ? Hpiece Hrest]; subst.
    change (join [c] (piece :: piece' :: pieces))
      with (piece ++ c :: join [c] (piece' :: pieces)).
    rewrite split_char_app by done. f_equal. by apply IH.
Qed.

Lemma elem_of_join_piece sep (pieces : list str) piece x :
  piece ∈ pieces → x ∈ piece → x ∈ join sep pieces.
Proof.
  induction pieces as [|p [|p' pieces] IH]; intros Hin Hx.
  - by apply elem_of_nil in Hin.
  - apply list_elem_of_singleton in Hin as ->. done.
  - change (join sep (p :: p' :: pieces)) with (p ++ sep ++ join sep (p' :: pieces)).
    apply elem_of_cons in Hin as [->|Hin]; [set_solver|].
    rewrite !elem_of_app. right. right. by apply IH.
Qed.

Lemma elem_of_join sep (pieces : list str) x :
  x ∈ join sep pieces → x ∈ sep ∨ ∃ piece, piece ∈ pieces ∧ x ∈ piece.
Proof.
  induction pieces as [|p [|p' pieces] IH]; intros Hx.
  - by apply elem_of_nil in Hx.
  - right. exists p. split; [left|done].
  - change (join sep (p :: p' :: pieces)) with (p ++ sep ++ join sep (p' :: pieces)) in Hx.
    rewrite !elem_of_app in Hx. destruct Hx as [Hx|[Hx|Hx]].
    + right. exists p. split; [left|done].
    + by left.
    + destruct (IH Hx) as [?|(piece & Hin & Hp)]; [by left|].
      right. exists piece. split; [by right|done].
Qed.

(** A character of a piece is a character of the string that was cut. *)
Lemma elem_of_split_piece c s piece x :
  piece ∈ split [c] None s → x ∈ piece → x ∈ s.
Proof.
  intros Hin Hx. rewrite <- (split_char_join c s). by eapply elem_of_join_piece.
Qed.

Lemma elem_of_strip s x : x ∈ strip s → x ∈ s.
Proof.
  destruct (strip_spec s) as (l & r & Hs & _). intros Hx.
  rewrite Hs. rewrite !elem_of_app. auto.
Qed.

Lemma strip_fixed t :
  (∀ c, head t = Some c → isspace c = false) →
  (∀ c, last t = Some c → isspace c = false) →
  strip t = t.
Proof.
  intros Hhead Hlast. unfold strip, rstrip.
  assert (lstrip t = t) as ->.
  { destruct t as [|c t]; [done|]. cbn. by rewrite (Hhead c). }
  assert (lstrip (reverse t) = reverse t) as ->.
  { destruct (reverse t) as [|c t'] eqn:E; [done|]. cbn.
    rewrite (Hlast c); [done|]. by rewrite <- head_reverse, E. }
  apply reverse_involutive.
Qed.

Lemma strip_idempotent s : strip (strip s) = strip s.
Proof.
  destruct (strip_spec s) as (l & r & _ & _ & _ & Hhead & Hlast).
  by apply strip_fixed.
Qed.

Lemma split_from_step_no sep c s :
  ¬ sep `prefix_of` (c :: s) →
  split_from sep None 0 (c :: s) = push c (split_from sep None 0 s).
Proof.
  intros Hno. cbn [split_from]. rewrite (bool_decide_false _ Hno), andb_false_r.
  by destruct (split_from sep None 0 s).
Qed.

Lemma split_from_step_yes sep c s :
  sep `prefix_of` (c :: s) →
  split_from sep None 0 (c :: s) = [] :: split_from sep None (length sep - 1) s.
Proof. intros Hyes. cbn [split_from]. by rewrite (bool_decide_true _ Hyes). Qed.

Lemma split_absent sep s : contains sep s = false → split sep None s = [s].
Proof.
  unfold split. induction s as [|c s IH]; intros Hc; [done|].
  cbn [contains] in Hc. apply orb_false_iff in Hc as [Hp Hc].
  apply bool_decide_eq_false in Hp.
  rewrite split_from_step_no by done.
  by rewrite IH.
Qed.

End MoreStrings.

Section MoreParsers.
Import PyStr.

(** Where an entry of the mapping comes from. *)
Lemma foldl_step_origin (pairs : list str) (tags : dict str) (k v : str) :
  foldl parse_tags_step tags pairs !! k = Some v →
  tags !! k = Some v ∨ ∃ p, p ∈ pairs ∧ parse_pair p = Some (k, v).
Proof.
  revert tags. induction pairs as [|p pairs IH]; intros tags; cbn [foldl]; [by left|].
  intros [Hk|(p' & Hin & Hp')]%IH.
  - unfold parse_tags_step in Hk. destruct (parse_pair p) as [[k' v']|] eqn:E; [|by left].
    destruct (decide (k' = k)) as [->|Hne].
    + rewrite lookup_insert_eq in Hk. injection Hk as ->. right. exists p. split; [left|done].
    + rewrite lookup_insert_ne in Hk by done. by left.
  - right. exists p'. split; [by right|done].
Qed.

Lemma foldl_step_keeps (pairs : list str) (tags : dict str) (k : str) :
  is_Some (tags !! k) → is_Some (foldl parse_tags_step tags pairs !! k).
Proof.
  revert tags. induction pairs as [|p pairs IH]; intros tags Hk; [done|].
  cbn [foldl]. apply IH. unfold parse_tags_step.
  destruct (parse_pair p) as [[k' v']|]; [|done].
  destruct (decide (k' = k)) as [->|Hne].
  - rewrite lookup_insert_eq. eauto.
  - by rewrite lookup_insert_ne.
Qed.

(** X1.  Every key and value that [parse_tags] returns is free of
    surrounding whitespace and of commas, and no key contains [=]. *)
Theorem parse_tags_entries_clean (s k v : str) :
  parse_tags (Some s) !! k = Some v →
  strip k = k ∧ strip v = v ∧ (44%N ∉ k) ∧ (61%N ∉ k) ∧ (44%N ∉ v).
Proof.
  rewrite parse_tags_fold. intros [Hk|(p & Hin & Hp)]%foldl_step_origin.
  { by rewrite lookup_empty in Hk. }
  assert (61%N ∈ p) as (k0 & v0 & -> & Hk0)%first_occurrence.
  { apply parse_pair_some_iff. by rewrite Hp. }
  rewrite parse_pair_first_eq in Hp by done. injection Hp as <- <-.
  assert (44%N ∉ k0 ++ 61%N :: v0) as Hcomma.
  { pose proof (split_char_no_sep 44 s) as Hall. rewrite Forall_forall in Hall.
    by apply Hall. }
  split; [apply strip_idempotent|]. split; [apply strip_idempotent|].
  split; [|split].
  - intros Hx%elem_of_strip. apply Hcomma. set_solver.
  - by intros Hx%elem_of_strip.
  - intros Hx%elem_of_strip. apply Hcomma. set_solver.
Qed.

Lemma parse_tags_entries_clean_witness :
  strip (py "c") = py "c" ∧ strip (py "3") = py "3"
  ∧ (44%N ∉ py "c") ∧ (61%N ∉ py "c") ∧ (44%N ∉ py "3").
Proof.
  apply (parse_tags_entries_clean (py "a=1,b=2,bad,c= 3 ")).
  vm_compute. reflexivity.
Defined.

Lemma parse_tags_empty_without_eq (s : str) : parse_tags (Some s) = ∅ ↔ 61%N ∉ s.
Proof.
  rewrite parse_tags_fold. split.
  - intros Hempty Hin.
    rewrite <- (split_char_join 44 s) in Hin.
    apply elem_of_join in Hin as [Hin|(p & Hp & Hin)].
    { apply list_elem_of_singleton in Hin. discriminate. }
    apply list_elem_of_split in Hp as (before & after & Hsplit).
    apply parse_pair_some_iff in Hin as [[k v] Hkv].
    assert (is_Some (foldl parse_tags_step ∅ (split (py ",") None s) !! k)) as [x Hx].
    { change (py ",") with [44%N]. rewrite Hsplit, foldl_app. cbn [foldl].
      apply foldl_step_keeps. unfold parse_tags_step at 1. rewrite Hkv.
      rewrite lookup_insert_eq. eauto. }
    by rewrite Hempty, lookup_empty in Hx.
  - intros Hnone. apply map_eq. intros k. rewrite lookup_empty.
    rewrite foldl_step_untouched; [apply lookup_empty|].
    apply Forall_forall. intros p Hp v.
    rewrite parse_pair_without_eq; [done|].
    intros Hin. apply Hnone. by eapply (elem_of_split_piece 44).
Qed.

(** X2.  [parse_tags] returns the empty mapping exactly for the strings
    without [=]; these are the tag arguments that [main] refuses. *)
Theorem parse_tags_empty_iff (s : str) : parse_tags (Some s) = ∅ ↔ 61%N ∉ s.
Proof. apply parse_tags_empty_without_eq. Qed.

(** X3.  Round trip: a list of pairs written as [key=value] and joined by
    commas parses to the mapping built from the pairs in order (a later
    pair replacing an earlier one with the same key), each key and value
    stripped, as long as no key contains [,] or [=] and no value [,]. *)
Theorem parse_tags_of_rendered (pairs : list (str * str)) :
  Forall (λ kv, (44%N ∉ kv.1) ∧ (61%N ∉ kv.1) ∧ (44%N ∉ kv.2)) pairs →
  parse_tags (Some (join (py ",") (render_pairs pairs)))
  = foldl (λ tags kv, <[strip kv.1 := strip kv.2]> tags) ∅ pairs.
Proof.
  intros Hall. destruct (decide (pairs = [])) as [->|Hne]; [done|].
  rewrite parse_tags_fold. change (py ",") with [44%N].
  rewrite split_join.
  - unfold render_pairs. rewrite foldl_fmap.
    generalize (∅ : dict str).
    induction pairs as [|[k v] pairs IH]; intros tags; [done|].
    inversion Hall as [|? ? (_ & Heq & _) Hrest]; subst. cbn [foldl].
    destruct (decide (pairs = [])) as [->|Hne'].
    + cbn. unfold parse_tags_step. by rewrite parse_pair_first_eq.
    + rewrite <- IH by done. f_equal.
      unfold parse_tags_step. by rewrite parse_pair_first_eq.
  - unfold render_pairs. by destruct pairs.
  - unfold render_pairs. apply Forall_fmap. eapply Forall_impl; [done|].
    intros [k v] (Hk & _ & Hv). cbn in *.
    intros [?|[?|?]%elem_of_cons]%elem_of_app; done.
Qed.

Lemma parse_tags_of_rendered_witness :
  parse_tags (Some (join (py ",") (render_pairs [(py "env", py "prod"); (py " owner", py "team a ")])))
  = foldl (λ tags kv, <[strip kv.1 := strip kv.2]> tags) ∅
      [(py "env", py "prod"); (py " owner", py "team a ")].
Proof.
  apply parse_tags_of_rendered.
  constructor; [|constructor; [|constructor]];
    (split; [by_computation|split; by_computation]).
Defined.

Lemma service_of_valid_arn (arn : str) :
  validate_arn arn = true →
  ∃ rest, arn = py "arn:aws:" ++ rest ∧ get_service_from_arn arn = Some (upto 58 rest).
Proof.
  unfold validate_arn, startswith. intros [rest ->]%bool_decide_eq_true.
  exists rest. split; [done|]. unfold get_service_from_arn.
  change (py ":") with [58%N].
  change (py "arn:aws:" ++ rest) with (py "arn" ++ 58%N :: (py "aws" ++ 58%N :: rest)).
  rewrite split_char_app by by_computation.
  rewrite split_char_app by by_computation.
  cbn [lookup list_lookup]. by apply (split_char_first 58).
Qed.

(** X4.  An identifier that passes [validate_arn] always has a service:
    it is the text between the prefix [arn:aws:] and the next colon (or
    the end), so that [get_service_from_arn] cannot answer [None] for an
    identifier that [main] lets through. *)
Theorem valid_arn_has_service (arn : str) :
  validate_arn arn = true →
  ∃ rest, arn = py "arn:aws:" ++ rest ∧ get_service_from_arn arn = Some (upto 58 rest).
Proof. apply service_of_valid_arn. Qed.

Lemma valid_arn_has_service_witness :
  ∃ rest, py "arn:aws:s3:::my-bucket" = py "arn:aws:" ++ rest
          ∧ get_service_from_arn (py "arn:aws:s3:::my-bucket") = Some (upto 58 rest).
Proof. apply valid_arn_has_service. vm_compute. reflexivity. Defined.

(** X5.  Decoding an identifier made of five colon-free fields and a
    resource part: the service is the third field, and the resource type
    is the resource part cut at its first colon or slash, whichever comes
    first; a resource part without either is returned whole. *)
Theorem arn_fields_decoded (partition service region account rest p0 : str) :
  58%N ∉ p0 → 58%N ∉ partition → 58%N ∉ service → 58%N ∉ region → 58%N ∉ account →
  let arn := p0 ++ 58%N :: partition ++ 58%N :: service ++ 58%N :: region
                ++ 58%N :: account ++ 58%N :: rest in
  get_service_from_arn arn = Some service
  ∧ get_resource_type_from_arn arn = Some (upto 47 (upto 58 rest))
  ∧ ((58%N ∉ rest) → (47%N ∉ rest) → get_resource_type_from_arn arn = Some rest).
Proof.
  intros H0 H1 H2 H3 H4 arn.
  assert (split (py ":") None arn
          = p0 :: partition :: service :: region :: account :: split [58%N] None rest) as Hsplit.
  { subst arn. change (py ":") with [58%N]. by rewrite !split_char_app. }
  assert (get_resource_type_from_arn arn = Some (upto 47 (upto 58 rest))) as Htype.
  { assert (split (py ":") None arn !! 5 = Some (upto 58 rest)) as Hfifth.
    { rewrite Hsplit. change (split [58%N] None rest !! 0 = Some (upto 58 rest)).
      by apply split_char_first. }
    rewrite resource_type_closed_form, Hfifth. cbn.
    case_bool_decide as Hslash; [done|]. by rewrite (upto_absent 47). }
  split; [unfold get_service_from_arn; by rewrite Hsplit|]. split; [done|].
  intros Hc Hs. by rewrite Htype, (upto_absent 58), (upto_absent 47).
Qed.

Lemma arn_fields_decoded_witness :
  let arn := py "arn" ++ 58%N :: py "aws" ++ 58%N :: py "logs" ++ 58%N :: py "eu-west-1"
                ++ 58%N :: py "123456789012" ++ 58%N :: py "log-group:/app/web" in
  get_service_from_arn arn = Some (py "logs")
  ∧ get_resource_type_from_arn arn = Some (upto 47 (upto 58 (py "log-group:/app/web")))
  ∧ ((58%N ∉ py "log-group:/app/web") → (47%N ∉ py "log-group:/app/web") →
     get_resource_type_from_arn arn = Some (py "log-group:/app/web")).
Proof. apply arn_fields_decoded; by_computation. Defined.

(** X6.  The bucket name of the S3 path is what follows the last [:::];
    for [arn:aws:s3:::name] it is [name], and for an identifier of the
    S3 service without [:::] it is the whole identifier. *)
Theorem bucket_name_of_arn :
  (∀ name, contains (py ":::") name = false →
           bucket_of (py "arn:aws:s3:::" ++ name) = name)
  ∧ (∀ arn, contains (py ":::") arn = false → bucket_of arn = arn).
Proof.
  split.
  - intros name Hname. unfold bucket_of, split.
    change (py "arn:aws:s3:::" ++ name)
      with (97 :: 114 :: 110 :: 58 :: 97 :: 119 :: 115 :: 58 :: 115 :: 51
            :: 58 :: 58 :: 58 :: name)%N.
    change (py ":::") with [58; 58; 58]%N in *.
    do 10 (rewrite split_from_step_no by (intros [k Hk]; discriminate)).
    rewrite split_from_step_yes by (by exists name).
    change (split_from [58; 58; 58]%N None (length [58; 58; 58]%N - 1) (58 :: 58 :: name)%N)
      with (split [58; 58; 58]%N None name).
    rewrite split_absent by done. reflexivity.
  - intros arn Harn. unfold bucket_of. by rewrite split_absent.
Qed.

Lemma bucket_name_of_arn_witness :
  bucket_of (py "arn:aws:s3:::" ++ py "my-bucket") = py "my-bucket"
  ∧ bucket_of (py "arn:aws:s3:eu-west-1:123456789012:accesspoint/ap")
    = py "arn:aws:s3:eu-west-1:123456789012:accesspoint/ap".
Proof.
  destruct bucket_name_of_arn as [Hname Hwhole].
  split; [apply Hname|apply Hwhole]; vm_compute; reflexivity.
Defined.

End MoreParsers.

(** * Further properties of the adapter *)

Section MoreAdapter.
Context {W : Type} (aws : boto3 W).

Lemma appconfig_path arn tags (st : io W) :
  tag_resource_with_service_api aws arn tags (Some (py "appconfig")) st
  = match appconfig_tag_resource aws arn tags (world st) with
    | (Ok _, w') => (Ok true, called [AppConfigTagResource arn tags] w' st)
    | (Raise e, w') =>
        (Ok false, logged [(ERROR, ServiceApiError (Some (py "appconfig")) (exn_str e))]
                     (called [AppConfigTagResource arn tags] w' st))
    end.
Proof.
  unfold tag_resource_with_service_api, service_api_body.
  rewrite bool_decide_true by done. run_monad.
  by destruct (appconfig_tag_resource aws arn tags (world st)) as [[[]|e] w'].
Qed.

Lemma resolver_path arn tags (st : io W) :
  tag_resource_with_service_api aws arn tags (Some (py "route53resolver")) st
  = match route53resolver_tag_resource aws arn (tag_list_of tags) (world st) with
    | (Ok _, w') => (Ok true, called [ResolverTagResource arn (tag_list_of tags)] w' st)
    | (Raise e, w') =>
        (Ok false, logged [(ERROR, ServiceApiError (Some (py "route53resolver")) (exn_str e))]
                     (called [ResolverTagResource arn (tag_list_of tags)] w' st))
    end.
Proof.
  unfold tag_resource_with_service_api, service_api_body.
  rewrite !bool_decide_false by (vm_compute; discriminate).
  rewrite bool_decide_true by done. run_monad.
  by destruct (route53resolver_tag_resource aws arn _ (world st)) as [[[]|e] w'].
Qed.

Lemma other_service_path arn tags service (st : io W) :
  is_unsupported service = false →
  tag_resource_with_service_api aws arn tags service st = (Ok false, st).
Proof.
  intros Hs. unfold tag_resource_with_service_api, service_api_body.
  rewrite !bool_decide_false; [done|intros ->; vm_compute in Hs; discriminate..].
Qed.

Lemma unsupported_cases service :
  is_unsupported service = true →
  service = Some (py "s3") ∨ service = Some (py "appconfig")
  ∨ service = Some (py "route53resolver").
Proof.
  destruct service as [s|]; [|discriminate]. cbn. intros Hin%bool_decide_eq_true.
  unfold unsupported_services in Hin.
  repeat (apply elem_of_cons in Hin as [->|Hin]; [tauto|]).
  by apply elem_of_nil in Hin.
Qed.

(** What the adapter sends: at most two requests, none of them to the bulk
    API. *)
Lemma adapter_requests arn tags service (st : io W) :
  ∃ ok st' requests,
    tag_resource_with_service_api aws arn tags service st = (Ok ok, st')
    ∧ calls st' = calls st ++ requests
    ∧ length requests ≤ 2
    ∧ bulk_requests requests = [].
Proof.
  destruct (is_unsupported service) eqn:Hs.
  - apply unsupported_cases in Hs as [->|[->| ->]].
    + destruct (s3_get_bucket_tagging aws (bucket_of arn) (world st))
        as [[response|[ce|text]] w1] eqn:E.
      * rewrite (bucket_path_write aws arn tags st _ _ (read_existing_ok aws _ st _ w1 E)).
        cbv zeta. destruct (s3_put_bucket_tagging _ _ _ _) as [[[]|e] w2];
          eexists _, _, [_; _]; (split; [done|]); cbn; rewrite <- app_assoc; auto.
      * rewrite (bucket_path_write aws arn tags st _ _
                   (read_existing_client_error aws _ st _ w1 E)).
        cbv zeta. destruct (s3_put_bucket_tagging _ _ _ _) as [[[]|e] w2];
          eexists _, _, [_; _]; (split; [done|]); cbn; rewrite <- app_assoc; auto.
      * rewrite (bucket_path_abort aws arn tags st _ _
                   (read_existing_exception aws _ st _ w1 E)).
        eexists _, _, [_]. split; [done|]. cbn. auto.
    + rewrite appconfig_path.
      destruct (appconfig_tag_resource aws arn tags (world st)) as [[[]|e] w'];
        eexists _, _, [_]; (split; [done|]); cbn; auto.
    + rewrite resolver_path.
      destruct (route53resolver_tag_resource aws arn _ (world st)) as [[[]|e] w'];
        eexists _, _, [_]; (split; [done|]); cbn; auto.
  - rewrite other_service_path by done. exists false, st, [].
    split; [done|]. split; [by rewrite app_nil_r|]. split; [cbn; lia|done].
Qed.

End MoreAdapter.

(** X7.  The adapter always answers with a boolean, whatever its client
    raises; it sends at most two requests and never one to the bulk API;
    and for a service other than [s3], [appconfig] and [route53resolver]
    (or for no service at all) it answers [False] without any request or
    log record. *)
Theorem adapter_contract :
  ∀ W (aws : boto3 W) arn tags service (st : io W),
    (∃ ok st' requests,
       tag_resource_with_service_api aws arn tags service st = (Ok ok, st')
       ∧ calls st' = calls st ++ requests
       ∧ length requests ≤ 2
       ∧ bulk_requests requests = [])
    ∧ (is_unsupported service = false →
       tag_resource_with_service_api aws arn tags service st = (Ok false, st)).
Proof.
  intros. split; [apply adapter_requests|apply other_service_path].
Qed.

Lemma adapter_contract_witness :
  tag_resource_with_service_api scripted (instance_arn 0) owner_team_a (Some (py "ec2"))
    (start quiet) = (Ok false, start quiet).
Proof.
  apply (adapter_contract script scripted (instance_arn 0) owner_team_a (Some (py "ec2"))
           (start quiet)).
  vm_compute. reflexivity.
Defined.

(** X8.  The AppConfig and the Route 53 Resolver paths send exactly one
    request, with the identifier and every tag (as the mapping itself,
    respectively as a list that has each key once and the mapping's
    entries as members); the answer is [True] when the request returns,
    and when it raises the answer is [False] and the exception's text is
    logged as an error. *)
Theorem single_request_paths :
  ∀ W (aws : boto3 W) arn tags (st : io W),
    tag_resource_with_service_api aws arn tags (Some (py "appconfig")) st
    = match appconfig_tag_resource aws arn tags (world st) with
      | (Ok _, w') => (Ok true, called [AppConfigTagResource arn tags] w' st)
      | (Raise e, w') =>
          (Ok false, logged [(ERROR, ServiceApiError (Some (py "appconfig")) (exn_str e))]
                       (called [AppConfigTagResource arn tags] w' st))
      end
    ∧ (∃ tag_list,
         tag_resource_with_service_api aws arn tags (Some (py "route53resolver")) st
         = match route53resolver_tag_resource aws arn tag_list (world st) with
           | (Ok _, w') => (Ok true, called [ResolverTagResource arn tag_list] w' st)
           | (Raise e, w') =>
               (Ok false,
                logged [(ERROR, ServiceApiError (Some (py "route53resolver")) (exn_str e))]
                  (called [ResolverTagResource arn tag_list] w' st))
           end
         ∧ NoDup (Key <$> tag_list)
         ∧ length tag_list = size tags
         ∧ ∀ k v, {| Key := k; Value := v |} ∈ tag_list ↔ tags !! k = Some v).
Proof.
  intros W aws arn tags st. split; [apply appconfig_path|].
  exists (tag_list_of tags). split; [apply resolver_path|].
  destruct (tag_list_of_spec tags) as [Hnd Hin]. split; [done|]. split; [|done].
  unfold tag_list_of. by rewrite length_fmap, length_map_to_list.
Qed.

(** * Further properties of the orchestrator *)

Lemma size_union_le (m1 m2 : dict FailureInfo) : size (m1 ∪ m2) ≤ size m1 + size m2.
Proof.
  assert (m1 ∪ m2 = m1 ∪ (m2 ∖ m1)) as ->.
  { apply map_eq. intros i. apply option_eq. intros x.
    rewrite !lookup_union_Some_raw, lookup_difference_Some. tauto. }
  rewrite map_size_disj_union.
  - assert (size (m2 ∖ m1) ≤ size m2); [|lia].
    apply map_subseteq_size, map_subseteq_spec. intros i x.
    rewrite lookup_difference_Some. tauto.
  - apply map_disjoint_spec. intros i x y Hx [_ Hy]%lookup_difference_Some. congruence.
Qed.

Lemma mark_all_size_le (info : FailureInfo) (arns : list str) (failed : dict FailureInfo) :
  size (mark_all info arns failed) ≤ size failed + length arns.
Proof.
  unfold mark_all. revert failed.
  induction arns as [|a arns IH]; intros failed; cbn [foldl length]; [lia|].
  etrans; [apply IH|]. rewrite map_size_insert.
  destruct (failed !! a); cbn; lia.
Qed.

Lemma bulk_requests_app (l k : list call) :
  bulk_requests (l ++ k) = bulk_requests l ++ bulk_requests k.
Proof. apply omap_app. Qed.

Lemma bulk_requests_of_bulk tags (chunks : list (list str)) :
  bulk_requests ((λ chunk, TagResources chunk tags) <$> chunks) = chunks.
Proof. induction chunks as [|chunk chunks IH]; [done|]. cbn. by rewrite <- IH at 2. Qed.

Section MoreOrchestrator.
Context {W : Type} (aws : boto3 W).
Implicit Types f : @frame W.

Lemma specific_step_general tags (arn : str) f :
  ∃ f', process_specific aws tags arn f = (Ok tt, f')
        ∧ bulk_requests (calls (env f')) = bulk_requests (calls (env f))
        ∧ (total_success_count f' + Z.of_nat (size (total_failed f'))
           ≤ total_success_count f + Z.of_nat (size (total_failed f)) + 1)%Z
        ∧ (total_success_count f ≤ total_success_count f')%Z
        ∧ ∀ k info, total_failed f' !! k = Some info →
                    total_failed f !! k = Some info
                    ∨ (k = arn ∧ info = service_specific_failure (get_service_from_arn arn)).
Proof.
  destruct (adapter_requests aws arn tags (get_service_from_arn arn) (env f))
    as (ok & st' & requests & E & Hcalls & _ & Hbulk).
  rewrite (process_specific_run _ _ _ _ _ _ E). eexists. split; [done|].
  destruct ok; cbn.
  - rewrite Hcalls, bulk_requests_app, Hbulk, app_nil_r.
    split; [done|]. split; [lia|]. split; [lia|]. auto.
  - rewrite Hcalls, bulk_requests_app, Hbulk, app_nil_r.
    split; [done|]. split; [|split; [lia|]].
    + rewrite map_size_insert. destruct (total_failed f !! arn); cbn; lia.
    + intros k info. destruct (decide (arn = k)) as [->|Hne].
      * rewrite lookup_insert_eq. intros [= <-]. by right.
      * rewrite lookup_insert_ne by done. by left.
Qed.

Lemma specific_loop_general tags (l : list str) f :
  ∃ f', for_each l (process_specific aws tags) f = (Ok tt, f')
        ∧ bulk_requests (calls (env f')) = bulk_requests (calls (env f))
        ∧ (total_success_count f' + Z.of_nat (size (total_failed f'))
           ≤ total_success_count f + Z.of_nat (size (total_failed f)) + Z.of_nat (length l))%Z
        ∧ (total_success_count f ≤ total_success_count f')%Z
        ∧ ∀ k info, total_failed f' !! k = Some info →
                    total_failed f !! k = Some info
                    ∨ (k ∈ l ∧ info = service_specific_failure (get_service_from_arn k)).
Proof.
  revert f. induction l as [|arn l IH]; intros f.
  - exists f. cbn. split; [done|]. split; [done|]. split; [lia|]. split; [lia|]. auto.
  - destruct (specific_step_general tags arn f) as (f1 & E1 & Hb1 & Hc1 & Hs1 & Hk1).
    destruct (IH f1) as (f' & E' & Hb' & Hc' & Hs' & Hk').
    exists f'. rewrite for_each_cons, E1. split; [done|].
    split; [congruence|]. split; [cbn [length]; lia|]. split; [lia|].
    intros k info [Hk|[Hin ->]]%Hk'.
    + apply Hk1 in Hk as [?|[-> ->]]; [by left|]. right. split; [left|done].
    + right. split; [by right|done].
Qed.

Lemma batch_loop_general tags (chunks : list (list str)) f :
  let f' := (for_each chunks (process_batch aws tags) f).2 in
  (total_success_count f' + Z.of_nat (size (total_failed f'))
   ≤ total_success_count f + Z.of_nat (size (total_failed f))
     + Z.of_nat (length (concat chunks)))%Z
  ∧ (answers_within_request aws →
     (total_success_count f ≤ total_success_count f')%Z
     ∧ ∀ k info, total_failed f' !! k = Some info →
                 total_failed f !! k = Some info ∨ k ∈ concat chunks).
Proof.
  cbv zeta. revert f. induction chunks as [|chunk chunks IH]; intros f.
  - cbn. split; [lia|]. intros _. split; [lia|]. auto.
  - rewrite for_each_cons. cbn [concat]. rewrite length_app.
    destruct (tagging_tag_resources aws chunk tags (world (env f)))
      as [[response|[ce|text]] w1] eqn:E.
    + rewrite (process_batch_ok _ _ _ _ _ _ E).
      set (batch_failed := default ∅ (FailedResourcesMap response)).
      match goal with |- context [for_each chunks _ ?f1] => destruct (IH f1) as [Hc Hw] end.
      cbn in Hc, Hw. pose proof (size_union_le batch_failed (total_failed f)).
      split; [lia|]. intros Hwithin. destruct (Hw Hwithin) as [Hs Hk].
      pose proof (Hwithin _ _ _ _ _ E) as Hin. fold batch_failed in Hin.
      pose proof (size_within batch_failed chunk Hin).
      split; [lia|]. intros k info [[Hb|[_ Hf]]%lookup_union_Some_raw|Hin']%Hk.
      * right. apply elem_of_app. left. apply Hin. eauto.
      * by left.
      * right. apply elem_of_app. by right.
    + rewrite (process_batch_client_error _ _ _ _ _ _ E).
      match goal with |- context [for_each chunks _ ?f1] => destruct (IH f1) as [Hc Hw] end.
      cbn in Hc, Hw.
      pose proof (mark_all_size_le (client_error_failure ce) chunk (total_failed f)).
      split; [lia|]. intros Hwithin. destruct (Hw Hwithin) as [Hs Hk].
      split; [lia|]. intros k info [Hm|Hin']%Hk.
      * rewrite mark_all_lookup in Hm. destruct (decide (k ∈ chunk)); [|by left].
        right. apply elem_of_app. by left.
      * right. apply elem_of_app. by right.
    + rewrite (process_batch_exception _ _ _ _ _ _ E). cbn.
      split; [lia|]. intros _. split; [lia|]. auto.
Qed.

(** The run is the batch loop started in the frame that the loop over the
    dedicated identifiers leaves. *)
Lemma run_two_phases (resource_arns : list str) tags (e : io W) :
  ∃ f1, for_each (service_specific_arns resource_arns) (process_specific aws tags)
          (new_frame e) = (Ok tt, f1)
        ∧ run aws resource_arns tags e
          = for_each (batches BATCH_SIZE (resource_groups_arns resource_arns))
              (process_batch aws tags) f1.
Proof.
  destruct (specific_loop_general tags (service_specific_arns resource_arns) (new_frame e))
    as (f1 & E1 & _).
  exists f1. split; [done|]. unfold run, apply_tags_body. run_monad.
  by rewrite E1, batch_engine_loop.
Qed.

Lemma bulk_arns_supported (resource_arns : list str) arn :
  arn ∈ resource_groups_arns resource_arns ↔
  arn ∈ resource_arns ∧ is_unsupported (get_service_from_arn arn) = false.
Proof.
  unfold resource_groups_arns. rewrite list_elem_of_filter.
  destruct (is_unsupported (get_service_from_arn arn)); intuition congruence.
Qed.

End MoreOrchestrator.

(** X9.  The [try] block of [apply_tags_to_resources] (entered once line
    109 has built the bulk client) ends in one of two ways only.  The loop
    over the dedicated identifiers never raises.  Then the bulk requests
    go out chunk by chunk: if none of them is answered by an exception
    other than a service error, the block reaches its summary and every
    chunk was sent; otherwise the first request so answered is the last
    one sent and the block ends with that very exception.  Hence a
    service error never reaches the handler of line 231, and without
    bulk-eligible identifiers the summary is always reached. *)
Theorem run_outcomes :
  ∀ W (aws : boto3 W) (resource_arns : list str) tags (e : io W),
    let chunks := batches BATCH_SIZE (resource_groups_arns resource_arns) in
    (∃ f1,
       for_each (service_specific_arns resource_arns) (process_specific aws tags) (new_frame e)
       = (Ok tt, f1)
       ∧ match first_unexpected (answers_to aws tags chunks (world (env f1))) with
         | None =>
             (run aws resource_arns tags e).1 = Ok tt
             ∧ bulk_requests (calls (env (run aws resource_arns tags e).2))
               = bulk_requests (calls e) ++ chunks
         | Some (i, text) =>
             (run aws resource_arns tags e).1 = Raise (EException text)
             ∧ bulk_requests (calls (env (run aws resource_arns tags e).2))
               = bulk_requests (calls e) ++ take (S i) chunks
             ∧ ∃ chunk, chunks !! i = Some chunk
                        ∧ last (calls (env (run aws resource_arns tags e).2))
                          = Some (TagResources chunk tags)
         end)
    ∧ (∀ ce, (run aws resource_arns tags e).1 ≠ Raise (EClientError ce))
    ∧ (resource_groups_arns resource_arns = [] → (run aws resource_arns tags e).1 = Ok tt).
Proof.
  intros W aws resource_arns tags e chunks.
  destruct (specific_loop_general aws tags (service_specific_arns resource_arns) (new_frame e))
    as (f1 & E1 & Hbulk & _).
  destruct (run_two_phases aws resource_arns tags e) as (f1' & E1' & Hrun).
  rewrite E1 in E1'. injection E1' as <-. fold chunks in Hrun.
  pose proof (batch_loop_answers aws tags chunks f1) as Hloop.
  rewrite <- Hrun in Hloop.
  split; [|split].
  - exists f1. split; [done|].
    destruct (first_unexpected (answers_to aws tags chunks (world (env f1)))) as [[i text]|].
    + destruct Hloop as (Hres & Hcalls & Hi). split; [done|].
      rewrite Hcalls, bulk_requests_app, bulk_requests_of_bulk, Hbulk. split; [done|].
      destruct (lookup_lt_is_Some_2 chunks i Hi) as [chunk Hchunk].
      exists chunk. split; [done|].
      rewrite (take_S_r _ _ _ Hchunk), fmap_app, app_assoc. apply last_snoc.
    + destruct Hloop as (Hres & Hcalls). split; [done|].
      by rewrite Hcalls, bulk_requests_app, bulk_requests_of_bulk, Hbulk.
  - intros ce Hce.
    destruct (first_unexpected (answers_to aws tags chunks (world (env f1)))) as [[i text]|];
      destruct Hloop as [Hres _]; congruence.
  - intros Hnil. subst chunks. rewrite Hnil, batches_nil in Hloop. apply Hloop.
Qed.

Lemma run_outcomes_witness :
  (run scripted [bucket_arn 1; bucket_arn 2] owner_team_a (start bulk_unreachable)).1 = Ok tt.
Proof.
  destruct (run_outcomes script scripted [bucket_arn 1; bucket_arn 2] owner_team_a
              (start bulk_unreachable)) as (_ & _ & Hnone).
  apply Hnone. vm_compute. reflexivity.
Defined.

(** X10.  The bulk requests of a whole run are the chunks of the
    bulk-eligible identifiers, in order, from the first one on, and all
    of them when the run reaches its summary; the dedicated calls add
    none.  Every identifier sent to the bulk API is an input identifier
    whose service is none of [s3], [appconfig] and [route53resolver]. *)
Theorem run_bulk_requests :
  ∀ W (aws : boto3 W) (resource_arns : list str) tags (e : io W),
    let chunks := batches BATCH_SIZE (resource_groups_arns resource_arns) in
    ∃ n, bulk_requests (calls (env (run aws resource_arns tags e).2))
         = bulk_requests (calls e) ++ take n chunks
         ∧ (completed (run aws resource_arns tags e).1 = true → n = length chunks)
         ∧ Forall (Forall (λ arn, arn ∈ resource_arns
                                  ∧ is_unsupported (get_service_from_arn arn) = false))
             chunks.
Proof.
  intros W aws resource_arns tags e chunks.
  destruct (specific_loop_general aws tags (service_specific_arns resource_arns) (new_frame e))
    as (f1' & E1' & Hbulk & _).
  destruct (run_two_phases aws resource_arns tags e) as (f1 & E1 & ->).
  rewrite E1 in E1'. injection E1' as <-.
  destruct (batch_loop_calls aws tags chunks f1) as (n & Hn & Hcalls & Hres).
  exists n. split; [|split].
  - fold chunks. rewrite Hcalls, bulk_requests_app, bulk_requests_of_bulk, Hbulk. done.
  - fold chunks. destruct (for_each chunks _ f1).1; [done|discriminate].
  - apply Forall_forall. intros chunk Hchunk. apply Forall_forall. intros arn Harn.
    apply bulk_arns_supported.
    rewrite <- (batches_concat BATCH_SIZE (resource_groups_arns resource_arns))
      by (unfold BATCH_SIZE; lia).
    apply list_elem_of_In, List.in_concat. exists chunk.
    split; by apply list_elem_of_In.
Qed.

Lemma run_bulk_requests_witness :
  let e := start quiet in
  let arns := [bucket_arn 1; instance_arn 3] in
  ∃ n, bulk_requests (calls (env (run scripted arns owner_team_a e).2))
       = bulk_requests (calls e) ++ take n (batches BATCH_SIZE (resource_groups_arns arns))
       ∧ n = length (batches BATCH_SIZE (resource_groups_arns arns)).
Proof.
  cbv zeta.
  destruct (run_bulk_requests script scripted [bucket_arn 1; instance_arn 3] owner_team_a
              (start quiet)) as (n & Hsent & Hall & _).
  exists n. split; [done|]. apply Hall. vm_compute. reflexivity.
Defined.

(** X11.  Whatever the identifiers (repeated or not) and whatever the
    world answers, also when the run is cut short, the success count and
    the number of failure entries together never exceed the number of
    input identifiers. *)
Theorem report_never_overcounts :
  ∀ W (aws : boto3 W) (resource_arns : list str) tags (e : io W),
    let f := (run aws resource_arns tags e).2 in
    (total_success_count f + Z.of_nat (size (total_failed f))
     ≤ Z.of_nat (length resource_arns))%Z.
Proof.
  intros W aws resource_arns tags e. cbv zeta.
  destruct (specific_loop_general aws tags (service_specific_arns resource_arns) (new_frame e))
    as (f1' & E1' & _ & Hcount & _).
  destruct (run_two_phases aws resource_arns tags e) as (f1 & E1 & ->).
  rewrite E1 in E1'. injection E1' as <-.
  destruct (batch_loop_general aws tags
              (batches BATCH_SIZE (resource_groups_arns resource_arns)) f1) as [Hbound _].
  cbv zeta in Hbound. rewrite batches_concat in Hbound by (unfold BATCH_SIZE; lia).
  cbn in Hcount. rewrite map_size_empty in Hcount.
  pose proof (filter_split_length
                (λ arn, is_unsupported (get_service_from_arn arn) = true) resource_arns) as Hlen.
  change (length (service_specific_arns resource_arns)
          + length (resource_groups_arns resource_arns) = length resource_arns) in Hlen.
  lia.
Qed.

(** X12.  When the bulk API reports failures only for identifiers it was
    sent, in every run (identifiers repeated or not, cut short or not)
    the success count is not negative, every key of the failure map is
    an input identifier, and the entry of an identifier of the services
    [s3], [appconfig] and [route53resolver] is the adapter's fixed record:
    code [ServiceSpecificAPIError] and the message naming the service. *)
Theorem failure_entries_origin :
  ∀ W (aws : boto3 W) (resource_arns : list str) tags (e : io W),
    answers_within_request aws →
    let f := (run aws resource_arns tags e).2 in
    (0 ≤ total_success_count f)%Z
    ∧ ∀ arn info,
        total_failed f !! arn = Some info →
        arn ∈ resource_arns
        ∧ (is_unsupported (get_service_from_arn arn) = true →
           info = {| StatusCode := None;
                     ErrorCode := Some (py "ServiceSpecificAPIError");
                     ErrorMessage :=
                       Some (py "Error usando API espec" ++ [237%N] ++ py "fica de "
                             ++ format_service (get_service_from_arn arn)) |}).
Proof.
  intros W aws resource_arns tags e Hwithin. cbv zeta.
  destruct (specific_loop_general aws tags (service_specific_arns resource_arns) (new_frame e))
    as (f1' & E1' & _ & _ & Hpos & Hkeys).
  destruct (run_two_phases aws resource_arns tags e) as (f1 & E1 & ->).
  rewrite E1 in E1'. injection E1' as <-.
  destruct (batch_loop_general aws tags
              (batches BATCH_SIZE (resource_groups_arns resource_arns)) f1) as [_ Hw].
  destruct (Hw Hwithin) as [Hpos' Hkeys']. clear Hw.
  rewrite batches_concat in Hkeys' by (unfold BATCH_SIZE; lia).
  cbn in Hpos. split; [lia|].
  intros arn info [[Hk|[Hin ->]]%Hkeys|Hin]%Hkeys'.
  - cbn in Hk. by rewrite lookup_empty in Hk.
  - apply list_elem_of_filter in Hin as [_ Hin]. done.
  - apply bulk_arns_supported in Hin as [Hin Hs]. split; [done|]. congruence.
Qed.

Lemma failure_entries_origin_witness :
  let f := (run picky [bucket_arn 2; bucket_arn 2; instance_arn 1] owner_team_a (start tt)).2 in
  (0 ≤ total_success_count f)%Z
  ∧ ∀ arn info,
      total_failed f !! arn = Some info →
      arn ∈ [bucket_arn 2; bucket_arn 2; instance_arn 1]
      ∧ (is_unsupported (get_service_from_arn arn) = true →
         info = {| StatusCode := None;
                   ErrorCode := Some (py "ServiceSpecificAPIError");
                   ErrorMessage :=
                     Some (py "Error usando API espec" ++ [237%N] ++ py "fica de "
                           ++ format_service (get_service_from_arn arn)) |}).
Proof.
  apply (failure_entries_origin unit picky [bucket_arn 2; bucket_arn 2; instance_arn 1]
           owner_team_a (start tt)).
  apply selective_within.
Defined.

Section AllSucceed.
Context {W : Type} (aws : boto3 W).
Implicit Types f : @frame W.

Lemma adapter_succeeds arn tags service (st : io W) :
  all_succeed aws → is_unsupported service = true →
  ∃ st', tag_resource_with_service_api aws arn tags service st = (Ok true, st').
Proof.
  intros (Happ & Hget & Hput & Hres & _) [->|[->| ->]]%unsupported_cases.
  - assert (∀ existing st1,
              read_existing_tags aws (bucket_of arn) st = (Ok existing, st1) →
              ∃ st', tag_resource_with_service_api aws arn tags (Some (py "s3")) st
                     = (Ok true, st')) as Hwrite.
    { intros existing st1 Hread. rewrite (bucket_path_write aws arn tags st st1 existing Hread).
      cbv zeta. specialize (Hput (bucket_of arn) (tag_list_of (tags ∪ existing)) (world st1)).
      destruct (s3_put_bucket_tagging _ _ _ _) as [[[]|err] w2]; [eauto|discriminate]. }
    specialize (Hget (bucket_of arn) (world st)).
    destruct (s3_get_bucket_tagging aws (bucket_of arn) (world st))
      as [[response|[ce|text]] w1] eqn:E.
    + eapply Hwrite. by apply read_existing_ok.
    + eapply Hwrite. by apply read_existing_client_error.
    + by destruct (Hget text).
  - rewrite appconfig_path. specialize (Happ arn tags (world st)).
    destruct (appconfig_tag_resource _ _ _ _) as [[[]|err] w']; [eauto|discriminate].
  - rewrite resolver_path. specialize (Hres arn (tag_list_of tags) (world st)).
    destruct (route53resolver_tag_resource _ _ _ _) as [[[]|err] w']; [eauto|discriminate].
Qed.

Lemma specific_loop_all_succeed tags (l : list str) f :
  all_succeed aws →
  Forall (λ arn, is_unsupported (get_service_from_arn arn) = true) l →
  ∃ f', for_each l (process_specific aws tags) f = (Ok tt, f')
        ∧ total_success_count f' = (total_success_count f + Z.of_nat (length l))%Z
        ∧ total_failed f' = total_failed f.
Proof.
  intros Hall. revert f. induction l as [|arn l IH]; intros f Hl.
  - exists f. cbn. split; [done|]. split; [lia|done].
  - inversion Hl as [|? ? Harn Hrest]; subst.
    destruct (adapter_succeeds arn tags _ (env f) Hall Harn) as (st' & E).
    rewrite for_each_cons, (process_specific_run _ _ _ _ _ _ E).
    destruct (IH {| total_success_count := total_success_count f + 1;
                    total_failed := total_failed f; env := st' |} Hrest)
      as (f' & E' & Hc & Hf).
    exists f'. split; [done|]. cbn in *. split; [lia|done].
Qed.

Lemma batch_loop_all_succeed tags (chunks : list (list str)) f :
  all_succeed aws →
  ∃ f', for_each chunks (process_batch aws tags) f = (Ok tt, f')
        ∧ total_success_count f'
          = (total_success_count f + Z.of_nat (length (concat chunks)))%Z
        ∧ total_failed f' = total_failed f.
Proof.
  intros Hall. revert f. induction chunks as [|chunk chunks IH]; intros f.
  - exists f. cbn. split; [done|]. split; [lia|done].
  - destruct Hall as (_ & _ & _ & _ & Hbulk).
    destruct (Hbulk chunk tags (world (env f))) as (response & E & Hnone).
    destruct (tagging_tag_resources aws chunk tags (world (env f))) as [answer w1] eqn:E'.
    cbn in E. subst answer.
    rewrite for_each_cons, (process_batch_ok _ _ _ _ _ _ E'), Hnone.
    match goal with |- context [for_each chunks _ ?f1] => destruct (IH f1) as (f' & -> & Hc & Hf) end.
    exists f'. split; [done|]. cbn in *. rewrite map_size_empty in Hc.
    rewrite length_app. split; [lia|]. rewrite Hf. apply (left_id_L ∅ (∪)).
Qed.

Lemma run_all_succeed (resource_arns : list str) tags (e : io W) :
  all_succeed aws →
  ∃ f, run aws resource_arns tags e = (Ok tt, f)
       ∧ total_success_count f = Z.of_nat (length resource_arns)
       ∧ total_failed f = ∅.
Proof.
  intros Hall.
  destruct (specific_loop_all_succeed tags (service_specific_arns resource_arns)
              (new_frame e) Hall) as (f1' & E1' & Hc1 & Hf1).
  { apply Forall_forall. by intros arn [? _]%list_elem_of_filter. }
  destruct (run_two_phases aws resource_arns tags e) as (f1 & E1 & ->).
  rewrite E1 in E1'. injection E1' as <-.
  destruct (batch_loop_all_succeed tags
              (batches BATCH_SIZE (resource_groups_arns resource_arns)) f1 Hall)
    as (f & -> & Hc & Hf).
  exists f. split; [done|].
  rewrite batches_concat in Hc by (unfold BATCH_SIZE; lia).
  pose proof (filter_split_length
                (λ arn, is_unsupported (get_service_from_arn arn) = true) resource_arns) as Hlen.
  change (length (service_specific_arns resource_arns)
          + length (resource_groups_arns resource_arns) = length resource_arns) in Hlen.
  cbn in Hc1, Hf1. split; [lia|congruence].
Qed.

End AllSucceed.

Lemma calm_all_succeed : all_succeed calm.
Proof.
  assert (∀ arns : list str, filter (λ arn : str, false = true) arns = []) as Hnone.
  { induction arns as [|arn arns IH]; [done|]. by rewrite filter_cons_False. }
  repeat split; try done.
  intros arns tags []. eexists. split; [done|]. cbn. by rewrite Hnone.
Qed.

(** X13.  When no call raises and the bulk API reports no failure, every
    run reaches its summary with every identifier counted as a success
    (repeated ones as often as they are given), an empty failure map and
    the outcome [True]. *)
Theorem all_succeed_run :
  ∀ W (aws : boto3 W) (resource_arns : list str) tags (e : io W),
    all_succeed aws →
    ∃ f, run aws resource_arns tags e = (Ok tt, f)
         ∧ total_success_count f = Z.of_nat (length resource_arns)
         ∧ total_failed f = ∅
         ∧ apply_tags_to_resources aws resource_arns tags e = (true, env f).
Proof.
  intros W aws resource_arns tags e Hall.
  destruct (run_all_succeed aws resource_arns tags e Hall) as (f & E & Hc & Hf).
  exists f. split; [done|]. split; [done|]. split; [done|].
  unfold apply_tags_to_resources. rewrite E, Hf. by rewrite map_size_empty.
Qed.

Lemma all_succeed_run_witness :
  ∃ f, run calm [bucket_arn 1; instance_arn 3; bucket_arn 1] owner_team_a (start tt) = (Ok tt, f)
       ∧ total_success_count f = 3%Z
       ∧ total_failed f = ∅
       ∧ apply_tags_to_resources calm [bucket_arn 1; instance_arn 3; bucket_arn 1]
           owner_team_a (start tt) = (true, env f).
Proof.
  apply (all_succeed_run unit calm [bucket_arn 1; instance_arn 3; bucket_arn 1] owner_team_a
           (start tt)).
  apply calm_all_succeed.
Defined.

(** X14.  A bulk request that returns: the success count grows by the
    size of the chunk less the number of reported failures, each reported
    entry is recorded as the API gave it (replacing an earlier entry of
    the same identifier) and all other entries stay; when the failures
    are reported for identifiers of the chunk only, the growth lies
    between 0 and the size of the chunk. *)
Theorem partial_chunk_failure :
  ∀ W (aws : boto3 W) tags (batch_arns : list str) (f : @frame W) response w1,
    tagging_tag_resources aws batch_arns tags (world (env f)) = (Ok response, w1) →
    let batch_failed := default ∅ (FailedResourcesMap response) in
    ∃ f', process_batch aws tags batch_arns f = (Ok tt, f')
          ∧ total_success_count f'
            = (total_success_count f + Z.of_nat (length batch_arns)
               - Z.of_nat (size batch_failed))%Z
          ∧ (∀ arn, total_failed f' !! arn
                    = match batch_failed !! arn with
                      | Some info => Some info
                      | None => total_failed f !! arn
                      end)
          ∧ env f' = called [TagResources batch_arns tags] w1 (env f)
          ∧ ((∀ arn, is_Some (batch_failed !! arn) → arn ∈ batch_arns) →
             (total_success_count f ≤ total_success_count f'
              ≤ total_success_count f + Z.of_nat (length batch_arns))%Z).
Proof.
  intros W aws tags batch_arns f response w1 E batch_failed.
  eexists. split; [by apply process_batch_ok|]. cbn. fold batch_failed.
  split; [lia|]. split; [|split; [done|]].
  - intros arn. rewrite lookup_union. by destruct (batch_failed !! arn), (total_failed f !! arn).
  - intros Hin. pose proof (size_within batch_failed batch_arns Hin). lia.
Qed.

Lemma partial_chunk_failure_witness :
  ∃ f', process_batch picky owner_team_a [instance_arn 0; instance_arn 1] (new_frame (start tt))
        = (Ok tt, f')
        ∧ total_success_count f' = 1%Z
        ∧ total_failed f' !! instance_arn 1 = Some invalid_arn_info
        ∧ total_failed f' !! instance_arn 0 = None.
Proof.
  destruct (partial_chunk_failure unit picky owner_team_a [instance_arn 0; instance_arn 1]
              (new_frame (start tt)) _ tt eq_refl) as (f' & E & Hcount & Hentries & _ & _).
  exists f'. split; [done|]. split; [|split].
  - rewrite Hcount. vm_compute. reflexivity.
  - rewrite Hentries. vm_compute. reflexivity.
  - rewrite Hentries. vm_compute. reflexivity.
Defined.

(** * The command line *)

Section MoreEntry.
Context {W : Type} (aws : boto3 W).
Import PyStr.

Lemma parse_arns_elem (resource_arns_arg arn : str) :
  arn ∈ parse_arns resource_arns_arg ↔
  arn ≠ [] ∧ ∃ piece, piece ∈ split (py ",") None resource_arns_arg ∧ arn = strip piece.
Proof.
  unfold parse_arns. rewrite list_elem_of_filter, list_elem_of_fmap.
  split; intros [Hne (piece & ? & ?)]; eauto.
Qed.

Lemma main_rejections (resource_arns_arg tags_arg : str) (e : io W) :
  ((∀ piece, piece ∈ split (py ",") None resource_arns_arg → strip piece = []) →
   main aws resource_arns_arg tags_arg e = (1, e))
  ∧ (∀ piece, piece ∈ split (py ",") None resource_arns_arg →
              strip piece ≠ [] → validate_arn (strip piece) = false →
              main aws resource_arns_arg tags_arg e = (1, e))
  ∧ ((61%N ∉ tags_arg) → main aws resource_arns_arg tags_arg e = (1, e)).
Proof.
  unfold main. cbv zeta. split; [|split].
  - intros Hblank. rewrite bool_decide_true; [done|].
    destruct (parse_arns resource_arns_arg) as [|arn arns] eqn:E; [done|].
    assert (arn ∈ parse_arns resource_arns_arg) as Hin by (rewrite E; left).
    apply parse_arns_elem in Hin as [Hne (piece & Hp & ->)]. by rewrite Hblank in Hne.
  - intros piece Hp Hne Hbad.
    case_bool_decide; [done|]. rewrite bool_decide_true; [done|].
    assert (strip piece ∈ invalid_arns (parse_arns resource_arns_arg)) as Hin.
    { unfold invalid_arns. apply list_elem_of_filter. split; [congruence|].
      apply parse_arns_elem. eauto. }
    intros Hnil. rewrite Hnil in Hin. by apply elem_of_nil in Hin.
  - intros Hnone. apply parse_tags_empty_without_eq in Hnone.
    repeat (case_bool_decide; [done|]). done.
Qed.

Lemma main_success (resource_arns_arg tags_arg : str) (e e' : io W) :
  main aws resource_arns_arg tags_arg e = (0, e') →
  let resource_arns := parse_arns resource_arns_arg in
  ∃ f, run aws resource_arns (parse_tags (Some tags_arg)) e = (Ok tt, f)
       ∧ total_failed f = ∅
       ∧ env f = e'
       ∧ resource_arns ≠ []
       ∧ Forall (λ arn, validate_arn arn = true ∧ strip arn = arn
                        ∧ is_Some (get_service_from_arn arn)) resource_arns
       ∧ 61%N ∈ tags_arg
       ∧ (NoDup resource_arns → answers_within_request aws →
          total_success_count f = Z.of_nat (length resource_arns)).
Proof.
  unfold main. cbv zeta.
  case_bool_decide as Hnil; [discriminate|].
  case_bool_decide as Hinvalid; [discriminate|].
  case_bool_decide as Htags; [discriminate|].
  unfold apply_tags_to_resources.
  destruct (run aws (parse_arns resource_arns_arg) (parse_tags (Some tags_arg)) e)
    as [[[]|[ce|text]] f] eqn:E; [|discriminate..].
  case_bool_decide as Hsize; [|discriminate]. intros [= <-].
  apply map_size_empty_iff in Hsize.
  exists f. split; [done|]. split; [done|]. split; [done|]. split; [done|].
  split; [|split].
  - apply Forall_forall. intros arn Harn.
    assert (validate_arn arn = true) as Hvalid.
    { destruct (validate_arn arn) eqn:Hv; [done|]. exfalso.
      assert (arn ∈ invalid_arns (parse_arns resource_arns_arg)) as Hin.
      { unfold invalid_arns. apply list_elem_of_filter. split; [congruence|done]. }
      rewrite Hinvalid in Hin. by apply elem_of_nil in Hin. }
    split; [done|]. split.
    + apply parse_arns_elem in Harn as [_ (piece & _ & ->)]. apply strip_idempotent.
    + destruct (service_of_valid_arn arn Hvalid) as (rest & _ & ->). eauto.
  - destruct (decide (61%N ∈ tags_arg)) as [|Hnone]; [done|].
    by apply parse_tags_empty_without_eq in Hnone.
  - intros Hnd Hwithin.
    destruct (run_accounted aws _ _ _ _ Hnd Hwithin E) as (_ & Hcount & _).
    rewrite Hsize, map_size_empty in Hcount. lia.
Qed.

End MoreEntry.

(** X15.  [main] stops with status 1, before any request is sent or
    anything else is changed, when the identifier argument holds nothing
    but commas and whitespace, when one of its entries, once stripped,
    does not start with [arn:aws:], and when the tag argument has no
    [=]. *)
Theorem main_refuses_bad_input :
  ∀ W (aws : boto3 W) (resource_arns_arg tags_arg : str) (e : io W),
    ((∀ piece, piece ∈ PyStr.split (py ",") None resource_arns_arg → PyStr.strip piece = []) →
     main aws resource_arns_arg tags_arg e = (1, e))
    ∧ (∀ piece, piece ∈ PyStr.split (py ",") None resource_arns_arg →
                PyStr.strip piece ≠ [] → validate_arn (PyStr.strip piece) = false →
                main aws resource_arns_arg tags_arg e = (1, e))
    ∧ ((61%N ∉ tags_arg) → main aws resource_arns_arg tags_arg e = (1, e)).
Proof. intros. apply main_rejections. Qed.

Lemma main_refuses_bad_input_witness :
  main scripted (py "arn:aws:s3:::b, not-an-arn") (py "env=prod") (start quiet)
  = (1, start quiet)
  ∧ main scripted (py "arn:aws:s3:::b") (py "env") (start quiet) = (1, start quiet)
  ∧ main scripted (py " , ,") (py "env=prod") (start quiet) = (1, start quiet).
Proof.
  split; [|split].
  - destruct (main_refuses_bad_input script scripted (py "arn:aws:s3:::b, not-an-arn")
                (py "env=prod") (start quiet)) as (_ & Hinvalid & _).
    apply (Hinvalid (py " not-an-arn")).
    + by_computation.
    + vm_compute. discriminate.
    + vm_compute. reflexivity.
  - destruct (main_refuses_bad_input script scripted (py "arn:aws:s3:::b") (py "env")
                (start quiet)) as (_ & _ & Htags).
    apply Htags. by_computation.
  - destruct (main_refuses_bad_input script scripted (py " , ,") (py "env=prod")
                (start quiet)) as (Hblank & _ & _).
    apply Hblank. intros piece Hin. vm_compute in Hin.
    repeat (apply elem_of_cons in Hin as [->|Hin]; [vm_compute; reflexivity|]).
    by apply elem_of_nil in Hin.
Defined.

(** X16.  When [main] ends with status 0, the run over the stripped,
    non-empty entries of the identifier argument reached its summary with
    an empty failure map; there was at least one identifier, each starts
    with [arn:aws:], is free of surrounding whitespace and has a service,
    and the tag argument has an [=].  If moreover the identifiers are
    pairwise distinct and the bulk API reports failures only for
    identifiers it was sent, every identifier was counted as a success. *)
Theorem main_exit_zero :
  ∀ W (aws : boto3 W) (resource_arns_arg tags_arg : str) (e e' : io W),
    main aws resource_arns_arg tags_arg e = (0, e') →
    let resource_arns := parse_arns resource_arns_arg in
    ∃ f, run aws resource_arns (parse_tags (Some tags_arg)) e = (Ok tt, f)
         ∧ total_failed f = ∅
         ∧ env f = e'
         ∧ resource_arns ≠ []
         ∧ Forall (λ arn, validate_arn arn = true ∧ PyStr.strip arn = arn
                          ∧ is_Some (get_service_from_arn arn)) resource_arns
         ∧ 61%N ∈ tags_arg
         ∧ (NoDup resource_arns → answers_within_request aws →
            total_success_count f = Z.of_nat (length resource_arns)).
Proof. intros. by apply main_success. Qed.

Lemma main_exit_zero_witness :
  ∃ f, run calm (parse_arns (py "arn:aws:s3:::b , arn:aws:ec2:eu-west-1:1:instance/i-1,"))
         (parse_tags (Some (py "env=prod"))) (start tt) = (Ok tt, f)
       ∧ total_failed f = ∅.
Proof.
  destruct (main_exit_zero unit calm (py "arn:aws:s3:::b , arn:aws:ec2:eu-west-1:1:instance/i-1,")
              (py "env=prod") (start tt)
              (main calm (py "arn:aws:s3:::b , arn:aws:ec2:eu-west-1:1:instance/i-1,")
                 (py "env=prod") (start tt)).2) as (f & E & Hf & _).
  - apply injective_projections; [vm_compute; reflexivity|reflexivity].
  - exists f. by split.
Defined.
